(** * The midpoint rule of the PHYS 4247 integration tutorial

    The notebook [integration.ipynb] defines one function,
    [integrate_midpoint(f, a, b, n)], and a convergence check that fits a
    power law to its error on [sin] over [[0, pi]].

    The Python text is embedded once, over a record of arithmetic
    operations, and read in two ways:

    - [exact]: Python floats are real numbers and every operation is exact.
      This is the reading of the specification, whose integrand maps a real
      number to a real number.  What depends on the values computed is
      proved here; it says nothing of rounding, overflow, or intervals
      narrower than the spacing of doubles.
    - [binary64]: Python floats are IEEE 754 doubles (the kernel's primitive
      floats), every operation rounds to nearest even.  The program runs
      here, so a concrete call can be evaluated.

    What does not depend on the values (which exception ends a call, how
    often the integrand is called, whether a lookup is in range) is proved
    for any arithmetic, and so for both readings.

    Exceptions are values: a computation returns [inl e] when it raises [e].
    Every call of the integrand is recorded, in order, in a log, so that the
    points at which [f] is evaluated can be counted and located. *)

From Stdlib Require Import ZArith List Bool Lia.
From Stdlib Require Import Reals Lra Psatz.
From Stdlib Require Import Uint63 PrimFloat Floats.
Import ListNotations.

Set Implicit Arguments.

(** ** Python values and exceptions *)

(** The exceptions the function can end with.  [E] is the type of whatever
    the integrand itself may raise. *)
Inductive exn (E : Type) : Type :=
| ValueError          (* np.linspace: "Number of samples, %s, must be non-negative." *)
| ZeroDivisionError   (* float division by zero *)
| IndexError          (* index out of bounds for the array *)
| Raised (e : E).     (* an exception of the integrand, passed on as it is *)

Arguments ValueError {E}.
Arguments ZeroDivisionError {E}.
Arguments IndexError {E}.
Arguments Raised {E} e.

(** Who carries out [(b - a)/n].  Between Python numbers (an [int] or a
    [float], as in [integrate_midpoint(np.sin, 0, np.pi, 1000)]) it is
    Python's division, which raises [ZeroDivisionError] at zero.  As soon as
    [a], [b] or [n] is a NumPy scalar (as is every [n] of [for n in nvals],
    an [np.int64]) it is NumPy's, which at zero warns, gives an infinity or
    nan, and raises nothing. *)
Inductive operands : Type := PythonNumbers | NumPyScalars.

(** Float arithmetic as the program uses it. *)
Record float_ops (T : Type) : Type := {
  of_int : Z -> T;            (* conversion of a Python int *)
  add : T -> T -> T;
  sub : T -> T -> T;
  mul : T -> T -> T;
  div : T -> T -> T;          (* quotient; by zero, what NumPy gives *)
  is_zero : T -> bool         (* [x == 0] *)
}.

(** [range(n)]: 0, 1, ..., n-1; empty when [n <= 0]. *)
Definition range (n : Z) : list Z := map Z.of_nat (seq 0 (Z.to_nat n)).

Section Program.

Variables T E : Type.
Variable F : float_ops T.

(** *** Computations: an outcome and the log of integrand calls *)

Definition M (A : Type) : Type := list T -> (exn E + A) * list T.

Definition ret {A} (v : A) : M A := fun log => (inr v, log).

Definition raise {A} (e : exn E) : M A := fun log => (inl e, log).

Definition bind {A B} (m : M A) (k : A -> M B) : M B :=
  fun log =>
    match m log with
    | (inr v, log') => k v log'
    | (inl e, log') => (inl e, log')
    end.

(** A call [f(x)]: the argument is logged, an exception of [f] goes up. *)
Definition call (f : T -> E + T) (x : T) : M T :=
  fun log =>
    (match f x with inr y => inr y | inl e => inl (Raised e) end, log ++ [x]).

(** [for j in js: s = body(j, s)], left at the first exception. *)
Fixpoint for_ {S} (js : list Z) (body : Z -> S -> M S) (s : S) : M S :=
  match js with
  | [] => ret s
  | j :: js' => bind (body j s) (for_ js' body)
  end.

(** What a finished computation gave, and which points [f] was called at. *)
Definition outcome {A} (m : M A) : exn E + A := fst (m []).
Definition evaluations {A} (m : M A) : list T := snd (m []).

(** *** NumPy *)

(** [x[i]] on a one-dimensional array: a negative index counts from the
    end, an index outside the array raises [IndexError]. *)
Definition getitem (x : list T) (i : Z) : M T :=
  let len := Z.of_nat (length x) in
  let k := if (i <? 0)%Z then (i + len)%Z else i in
  if ((k <? 0) || (len <=? k))%Z then raise IndexError
  else match nth_error x (Z.to_nat k) with
       | Some v => ret v
       | None => raise IndexError
       end.

(** [y[-1] = stop] on a non-empty array. *)
Definition set_last (y : list T) (stop : T) : list T := removelast y ++ [stop].

(** [np.linspace(start, stop, num)] with the default [endpoint=True]:
    [num] samples [j * step + start], [step = (stop - start) / (num - 1)],
    the last one set to [stop] itself.  A negative [num] is refused, and
    with fewer than two samples there is no step to divide for.  A grid of
    any length is returned: the limits of memory and of NumPy's index type
    are not modelled. *)
Definition linspace (start stop : T) (num : Z) : M (list T) :=
  if (num <? 0)%Z then raise ValueError
  else
    let dv := (num - 1)%Z in
    let delta := sub F stop start in
    let y := map (of_int F) (range num) in
    let y :=
      if (0 <? dv)%Z then
        let step := div F delta (of_int F dv) in
        if is_zero F step
        then map (fun v => mul F (div F v (of_int F dv)) delta) y
        else map (fun v => mul F v step) y
      else map (fun v => mul F v delta) y in
    let y := map (fun v => add F v start) y in
    ret (if (1 <? num)%Z then set_last y stop else y).

(** *** Python arithmetic on a float and an int *)

(** [u / n] for a Python number [u] and an int [n]: [ZeroDivisionError]
    when [n] is zero.  The bounds are Python numbers, as in the notebook's
    calls [integrate_midpoint(np.sin, 0, np.pi, n)]. *)
Definition truediv (u : T) (n : Z) : M T :=
  if (n =? 0)%Z then raise ZeroDivisionError else ret (div F u (of_int F n)).

(** [u / n] for either kind of operands: NumPy's division raises nothing. *)
Definition truediv_on (o : operands) (u : T) (n : Z) : M T :=
  match o with
  | PythonNumbers => truediv u n
  | NumPyScalars => ret (div F u (of_int F n))
  end.

(** *** The notebook's function *)

(** <<
    def integrate_midpoint(f, a, b, n):
        x = np.linspace(a, b, num=n+1)
        dx = (b-a)/n

        integral = 0
        for j in range(n):
            xmid = (x[j] + x[j+1])/2
            integral += f(xmid)*dx

        return integral
    >> *)
Definition integrate_midpoint (f : T -> E + T) (a b : T) (n : Z) : M T :=
  bind (linspace a b (n + 1)) (fun x =>
  bind (truediv (sub F b a) n) (fun dx =>
  for_ (range n) (fun j integral =>
    bind (getitem x j) (fun xj =>
    bind (getitem x (j + 1)) (fun xj1 =>
    bind (truediv (add F xj xj1) 2) (fun xmid =>
    bind (call f xmid) (fun fx =>
    ret (add F integral (mul F fx dx)))))))
    (of_int F 0))).

(** The same text on either kind of operands.  The kind shows in
    [(b - a)/n] only: [(x[j] + x[j+1])/2] divides NumPy floats by 2, and
    [np.linspace], [range] and the lookups take a Python [int] and an
    [np.int64] alike.  On Python numbers this is [integrate_midpoint]. *)
Definition integrate_midpoint_on
    (o : operands) (f : T -> E + T) (a b : T) (n : Z) : M T :=
  bind (linspace a b (n + 1)) (fun x =>
  bind (truediv_on o (sub F b a) n) (fun dx =>
  for_ (range n) (fun j integral =>
    bind (getitem x j) (fun xj =>
    bind (getitem x (j + 1)) (fun xj1 =>
    bind (truediv (add F xj xj1) 2) (fun xmid =>
    bind (call f xmid) (fun fx =>
    ret (add F integral (mul F fx dx)))))))
    (of_int F 0))).

End Program.

Arguments ret {T E A} v.
Arguments raise {T E A} e.
Arguments bind {T E A B} m k.
Arguments outcome {T E A} m.
Arguments evaluations {T E A} m.
Arguments getitem {T E} x i.
Arguments linspace {T E} F start stop num.
Arguments truediv {T E} F u n.
Arguments integrate_midpoint {T E} F f a b n.
Arguments truediv_on {T E} F o u n.
Arguments integrate_midpoint_on {T E} F o f a b n.

(** ** The two readings of float arithmetic *)

(** Exact arithmetic on the reals. *)
Definition exact : float_ops R :=
  {| of_int := IZR;
     add := Rplus; sub := Rminus; mul := Rmult; div := Rdiv;
     is_zero := fun x => if Req_dec_T x 0 then true else false |}.

(** IEEE 754 binary64, as Python's [float] and NumPy's [float64].  An int
    becomes the nearest double, ties to even (and an infinity beyond the
    doubles, where Python raises [OverflowError]). *)
Definition b64_of_int (z : Z) : float :=
  SF2Prim (binary_normalize prec emax z 0 false).

Definition binary64 : float_ops float :=
  {| of_int := b64_of_int;
     add := PrimFloat.add; sub := PrimFloat.sub;
     mul := PrimFloat.mul; div := PrimFloat.div;
     is_zero := fun x => PrimFloat.eqb x PrimFloat.zero |}.

(** A step function on doubles: [2.0**52 if x < -1 else 0.5]. *)
Definition step_integrand (x : float) : float :=
  if PrimFloat.ltb x (-1)%float then 0x1p52%float else 0.5%float.

(** The sign on doubles: [1.0 if x >= 0 else -1.0]. *)
Definition sign_integrand (x : float) : float :=
  if PrimFloat.leb 0%float x then 1%float else (-1)%float.


(** An integrand with a restricted domain: it raises from [1/2] on. *)
Definition below_half (x : R) : unit + R :=
  if Rlt_dec x (1 / 2) then inr x else inl tt.

(** The same on doubles. *)
Definition below_half64 (x : float) : unit + float :=
  if PrimFloat.ltb x 0.5%float then inr x else inl tt.

(** An integrand that never raises. *)
Definition pure {T E} (g : T -> T) : T -> E + T := fun x => inr (g x).


(** ** What the log says about a result *)

(** Every logged call of [f] returned. *)
Definition calls_ok {T E} (f : T -> E + T) (log : list T) : Prop :=
  forall x, In x log -> exists v, f x = inr v.

(** A result is faithful to [f] when the only way it carries [Raised e] is
    that the last logged call raised [e], all earlier ones having returned;
    otherwise every logged call returned. *)
Definition faithful_result {T E A}
    (f : T -> E + T) (r : (exn E + A) * list T) : Prop :=
  match r with
  | (inl (Raised e), log) =>
      exists l x, log = l ++ [x] /\ calls_ok f l /\ f x = inl e
  | (_, log) => calls_ok f log
  end.

Definition faithful {T E A} (f : T -> E + T) (m : M T E A) : Prop :=
  forall log, calls_ok f log -> faithful_result f (m log).

(** ** The specification's formula

    The quantities the specification names, over the reals: the step width,
    the grid points, the midpoints and the sum. *)

Local Open Scope R_scope.

Definition width (a b : R) (n : Z) : R := (b - a) / IZR n.

Definition node (a b : R) (n j : Z) : R := a + IZR j * width a b n.

Definition midpoint (a b : R) (n j : Z) : R :=
  a + IZR j * width a b n + width a b n / 2.

(** The [n + 1] end points, the last one being [b] itself. *)
Definition grid (a b : R) (n : Z) : list R := map (node a b n) (range n) ++ [b].

(** One pass of the loop once its midpoint is known: call [f] there and add
    the area to the running sum. *)
Definition term {E} (f : R -> E + R) (dx p integral : R) : M R E R :=
  bind (call f p) (fun fx => ret (integral + fx * dx)).

(** The sum of a list of reals. *)
Fixpoint sumR (l : list R) : R :=
  match l with
  | [] => 0
  | x :: l' => x + sumR l'
  end.

(** The sum of [f(midpoint j) * width], from zero, [j] ascending. *)
Definition midpoint_sum (g : R -> R) (a b : R) (n : Z) : R :=
  fold_left (fun acc j => acc + g (midpoint a b n j) * width a b n) (range n) 0.

(** ** The convergence check

    <<
    nvals = np.arange(10, 1010, 10)
    integrals = np.array([integrate_midpoint(np.sin, 0, np.pi, n) for n in nvals])
    error = np.abs(2 - integrals)

    powerlaw_index = np.polyfit(np.log(nvals), np.log(error), 1)[0]
    >>

    [np.sin], [np.pi] and [np.log] are the sine, pi and the natural logarithm
    of the reals, so the check is read in exact arithmetic only.  Every [n]
    is an [np.int64] here; as none is zero, the call is the one on Python
    numbers ([integrate_midpoint_on_nonzero]). *)

(** [np.arange(start, stop, step)] on ints with a positive step. *)
Definition arange (start stop step : Z) : list Z :=
  map (fun k => start + step * k)%Z (range ((stop - start + step - 1) / step)).

(** [[k(n) for n in ns]], left at the first exception. *)
Fixpoint comprehension {T E A} (k : Z -> M T E A) (ns : list Z) : M T E (list A) :=
  match ns with
  | [] => ret []
  | n :: ns' =>
      bind (k n) (fun v => bind (comprehension k ns') (fun vs => ret (v :: vs)))
  end.

(** [np.polyfit(x, y, 1)[0]]: the slope of the least-squares line through
    the points [(x_i, y_i)], in closed form. *)
Definition polyfit_slope (xs ys : list R) : R :=
  let n := INR (length xs) in
  let sx := sumR xs in
  let sy := sumR ys in
  let sxy := sumR (map (fun p => fst p * snd p) (combine xs ys)) in
  let sxx := sumR (map (fun x => x * x) xs) in
  (n * sxy - sx * sy) / (n * sxx - sx * sx).

Definition nvals : list Z := arange 10 1010 10.

Definition integrals {E} : M R E (list R) :=
  comprehension (fun n => integrate_midpoint exact (pure sin) 0 PI n) nvals.

Definition error (integrals : list R) : list R :=
  map (fun v => Rabs (2 - v)) integrals.

Definition powerlaw_index {E} : M R E R :=
  bind integrals (fun vs =>
  ret (polyfit_slope (map (fun n => ln (IZR n)) nvals) (map ln (error vs)))).

(** *** Quantities of a least-squares fit

    For points [(X n, Y n)] indexed by a list [ns]. *)

(** The sum of [h] over the points. *)
Definition total {A} (ns : list A) (h : A -> R) : R := sumR (map h ns).

(** [N * sum x^2 - (sum x)^2], the denominator of the slope. *)
Definition spread {A} (ns : list A) (X : A -> R) : R :=
  INR (length ns) * total ns (fun n => X n * X n) - total ns X * total ns X.

(** [N * x - sum x], the abscissa counted from the mean, times [N]. *)
Definition centred {A} (ns : list A) (X : A -> R) (n : A) : R :=
  INR (length ns) * X n - total ns X.

(** The squared error of the line [y = m*x + c]. *)
Definition squared_error {A} (ns : list A) (X Y : A -> R) (m c : R) : R :=
  total ns (fun n => (Y n - (m * X n + c)) * (Y n - (m * X n + c))).

(** ** Lists, ranges and the monad *)

Lemma range_length (n : Z) : length (range n) = Z.to_nat n :> nat.
Proof. unfold range. now rewrite length_map, length_seq. Qed.

Lemma range_In (n j : Z) : In j (range n) <-> (0 <= j < n)%Z.
Proof.
  unfold range. rewrite in_map_iff. split.
  - intros [k [<- Hk]]. apply in_seq in Hk. lia.
  - intros H. exists (Z.to_nat j). split; [lia|]. apply in_seq. lia.
Qed.

Lemma range_succ (n : Z) : (0 <= n)%Z -> range (n + 1) = range n ++ [n].
Proof.
  intros H. unfold range.
  replace (Z.to_nat (n + 1)) with (S (Z.to_nat n)) by lia.
  rewrite seq_S, map_app. simpl. now rewrite Z2Nat.id.
Qed.

Lemma range_nonpos (n : Z) : (n <= 0)%Z -> range n = [].
Proof. intros H. unfold range. now replace (Z.to_nat n) with 0%nat by lia. Qed.

Lemma range_nth_error {A} (h : Z -> A) (n j : Z) :
  (0 <= j < n)%Z -> nth_error (map h (range n)) (Z.to_nat j) = Some (h j).
Proof.
  intros H. unfold range. rewrite map_map.
  rewrite nth_error_map, nth_error_seq.
  destruct (Nat.ltb_spec (Z.to_nat j) (Z.to_nat n)); [|lia].
  simpl. now rewrite Z2Nat.id by lia.
Qed.

Section Monad.

Variables T E : Type.
Implicit Types (log : list T).

Lemma bind_inr {A B} (m : M T E A) (k : A -> M T E B) log v log' :
  m log = (inr v, log') -> bind m k log = k v log'.
Proof. intros H. unfold bind. now rewrite H. Qed.

Lemma bind_inl {A B} (m : M T E A) (k : A -> M T E B) log e log' :
  m log = (inl e, log') -> bind m k log = (inl e, log').
Proof. intros H. unfold bind. now rewrite H. Qed.

(** Two bodies that agree on the indices of the loop give the same loop. *)
Lemma for_ext {S} (body1 body2 : Z -> S -> M T E S) js :
  (forall j, In j js -> forall s log, body1 j s log = body2 j s log) ->
  forall s log, for_ js body1 s log = for_ js body2 s log.
Proof.
  induction js as [|j js IH]; intros H s log; [reflexivity|].
  cbn [for_]. unfold bind. rewrite (H j) by now left.
  destruct (body2 j s log) as [[e|v] log']; [reflexivity|].
  apply IH. intros k Hk. apply H. now right.
Qed.

End Monad.

(** ** Exceptions of the integrand, in any arithmetic *)

Section Propagation.

Variables T E : Type.
Variable F : float_ops T.
Variable f : T -> E + T.

Lemma faithful_ret {A} (v : A) : faithful f (ret v).
Proof. intros log H. exact H. Qed.

Lemma faithful_raise {A} (e : exn E) :
  (forall e', e <> Raised e') -> faithful f (raise (A:=A) e).
Proof.
  intros Hne log H. unfold raise. cbn.
  destruct e; try exact H. now destruct (Hne e).
Qed.

Lemma faithful_call (x : T) : faithful f (call f x).
Proof.
  intros log H. unfold call. destruct (f x) as [e|v] eqn:Hx; cbn.
  - exists log, x. auto.
  - intros y Hy. apply in_app_or in Hy. destruct Hy as [Hy|[<-|[]]]; eauto.
Qed.

Lemma faithful_bind {A B} (m : M T E A) (k : A -> M T E B) :
  faithful f m -> (forall v, faithful f (k v)) -> faithful f (bind m k).
Proof.
  intros Hm Hk log H. unfold bind. specialize (Hm log H).
  destruct (m log) as [[e|v] log']; [exact Hm|].
  apply Hk. exact Hm.
Qed.

Lemma faithful_for {S} (body : Z -> S -> M T E S) (js : list Z) :
  (forall j s, faithful f (body j s)) -> forall s, faithful f (for_ js body s).
Proof.
  intros Hb. induction js as [|j js IH]; intros s; cbn [for_].
  - apply faithful_ret.
  - apply faithful_bind; [apply Hb|exact IH].
Qed.

Lemma faithful_getitem (x : list T) (i : Z) : faithful f (getitem x i).
Proof.
  unfold getitem. destruct (_ || _).
  - apply faithful_raise. discriminate.
  - destruct (nth_error _ _); [apply faithful_ret|apply faithful_raise; discriminate].
Qed.

Lemma faithful_truediv (u : T) (n : Z) : faithful f (truediv F u n).
Proof.
  unfold truediv. destruct (n =? 0)%Z;
    [apply faithful_raise; discriminate|apply faithful_ret].
Qed.

Lemma faithful_linspace (a b : T) (num : Z) : faithful f (linspace F a b num).
Proof.
  unfold linspace. destruct (num <? 0)%Z;
    [apply faithful_raise; discriminate|apply faithful_ret].
Qed.

Lemma faithful_integrate_midpoint (a b : T) (n : Z) :
  faithful f (integrate_midpoint F f a b n).
Proof.
  unfold integrate_midpoint.
  apply faithful_bind; [apply faithful_linspace|intros x].
  apply faithful_bind; [apply faithful_truediv|intros dx].
  apply faithful_for. intros j s.
  apply faithful_bind; [apply faithful_getitem|intros xj].
  apply faithful_bind; [apply faithful_getitem|intros xj1].
  apply faithful_bind; [apply faithful_truediv|intros xmid].
  apply faithful_bind; [apply faithful_call|intros fx].
  apply faithful_ret.
Qed.

End Propagation.

(** ** Calls and lookups, in any arithmetic *)

Section Counting.

Variables T E : Type.
Variable F : float_ops T.

(** Whatever the arithmetic, [np.linspace] returns [num] samples. *)
Lemma linspace_length (a b : T) (num : Z) (log : list T) :
  (0 <= num)%Z ->
  exists x, linspace (E:=E) F a b num log = (inr x, log)
            /\ length x = Z.to_nat num.
Proof.
  intros Hnum. unfold linspace.
  destruct (Z.ltb_spec num 0); [lia|].
  set (y := map (fun v => add F v a) _).
  assert (Hy : length y = Z.to_nat num).
  { unfold y. destruct (0 <? num - 1)%Z; [destruct (is_zero F _)|];
      now rewrite !length_map, range_length. }
  eexists. split; [reflexivity|].
  destruct (Z.ltb_spec 1 num); [|exact Hy].
  unfold set_last. rewrite length_app. cbn [length].
  destruct y as [|y0 y'] using rev_ind; [cbn in Hy; lia|].
  rewrite removelast_last. rewrite length_app in Hy. cbn in Hy |- *. lia.
Qed.

Lemma getitem_inside (x : list T) (j : Z) (log : list T) :
  (0 <= j < Z.of_nat (length x))%Z ->
  exists v, getitem (E:=E) x j log = (inr v, log).
Proof.
  intros Hj. unfold getitem.
  destruct (Z.ltb_spec j 0); [lia|].
  destruct (Z.ltb_spec j 0); [lia|].
  destruct (Z.leb_spec (Z.of_nat (length x)) j); [lia|]. cbn [orb].
  destruct (nth_error x (Z.to_nat j)) as [v|] eqn:Hv; [now exists v|].
  apply nth_error_None in Hv. lia.
Qed.

(** With an integrand that returns, every pass of the loop makes one call. *)
Lemma loop_calls (g : T -> T) (x : list T) (dx : T) (js : list Z) :
  (forall j, In j js -> (0 <= j /\ j + 1 < Z.of_nat (length x))%Z) ->
  forall integral log,
  exists v log',
    for_ js (fun j integral =>
      bind (getitem x j) (fun xj =>
      bind (getitem x (j + 1)) (fun xj1 =>
      bind (truediv F (add F xj xj1) 2) (fun xmid =>
      bind (call (pure (E:=E) g) xmid) (fun fx =>
      ret (add F integral (mul F fx dx))))))) integral log
    = (inr v, log ++ log')
    /\ length log' = length js.
Proof.
  induction js as [|j js IH]; intros Hjs integral log.
  - exists integral, []. cbn. now rewrite app_nil_r.
  - destruct (Hjs j (or_introl eq_refl)) as [Hj0 Hj1].
    destruct (@getitem_inside x j log ltac:(lia)) as [xj Hxj].
    destruct (@getitem_inside x (j + 1) log ltac:(lia)) as [xj1 Hxj1].
    cbn [for_].
    erewrite bind_inr; [|erewrite bind_inr by exact Hxj;
                         erewrite bind_inr by exact Hxj1;
                         erewrite bind_inr by reflexivity;
                         reflexivity].
    destruct (IH (fun k Hk => Hjs k (or_intror Hk))
                 (add F integral (mul F (g (div F (add F xj xj1) (of_int F 2))) dx))
                 (log ++ [div F (add F xj xj1) (of_int F 2)])) as (v & log' & Hv & Hlen).
    exists v, (div F (add F xj xj1) (of_int F 2) :: log').
    split; [|cbn; now rewrite Hlen].
    rewrite Hv. now rewrite <- app_assoc.
Qed.

Lemma integrate_midpoint_calls (g : T -> T) (a b : T) (n : Z) :
  (1 <= n)%Z ->
  (exists v, outcome (integrate_midpoint F (pure (E:=E) g) a b n) = inr v)
  /\ length (evaluations (integrate_midpoint F (pure (E:=E) g) a b n)) = Z.to_nat n.
Proof.
  intros Hn. unfold outcome, evaluations, integrate_midpoint.
  destruct (@linspace_length a b (n + 1) [] ltac:(lia)) as (x & Hx & Hlen).
  erewrite bind_inr by exact Hx.
  erewrite bind_inr
    by (unfold truediv; destruct (Z.eqb_spec n 0); [lia|reflexivity]).
  destruct (@loop_calls g x (div F (sub F b a) (of_int F n)) (range n)) with
    (integral := of_int F 0) (log := @nil T) as (v & log' & Hv & Hl).
  - intros j Hj. apply range_In in Hj. lia.
  - rewrite Hv. cbn. split; [now exists v|]. now rewrite Hl, range_length.
Qed.

End Counting.

(** ** The loop as a fold, in any arithmetic *)

Section Folding.

Variables T E : Type.
Variable F : float_ops T.

(** [x[j]] as a value, for an index inside the array. *)
Lemma getitem_nth (x : list T) (j : Z) (d : T) (log : list T) :
  (0 <= j < Z.of_nat (length x))%Z ->
  getitem (E:=E) x j log = (inr (nth (Z.to_nat j) x d), log).
Proof.
  intros Hj. destruct (@getitem_inside T E x j log Hj) as [v Hv].
  rewrite Hv. unfold getitem in Hv.
  destruct (Z.ltb_spec j 0); [lia|].
  destruct (_ || _); [discriminate|].
  destruct (nth_error x (Z.to_nat j)) as [w|] eqn:Hw; [|discriminate].
  injection Hv as <-. now rewrite (nth_error_nth x (Z.to_nat j) d Hw).
Qed.

(** With an integrand that returns, the loop is a left fold in the
    arithmetic at hand: from zero, [j] ascending, each term
    [g((x[j] + x[j+1])/2) * dx]. *)
Lemma loop_fold (g : T -> T) (x : list T) (dx d : T) (js : list Z) :
  (forall j, In j js -> (0 <= j /\ j + 1 < Z.of_nat (length x))%Z) ->
  forall integral log,
    fst (for_ js (fun j integral =>
      bind (getitem x j) (fun xj =>
      bind (getitem x (j + 1)) (fun xj1 =>
      bind (truediv F (add F xj xj1) 2) (fun xmid =>
      bind (call (pure (E:=E) g) xmid) (fun fx =>
      ret (add F integral (mul F fx dx))))))) integral log)
    = inr (fold_left
             (fun acc j =>
                add F acc
                  (mul F (g (div F (add F (nth (Z.to_nat j) x d)
                                          (nth (Z.to_nat (j + 1)) x d))
                               (of_int F 2)))
                     dx))
             js integral).
Proof.
  induction js as [|j js IH]; intros Hjs integral log; [reflexivity|].
  destruct (Hjs j (or_introl eq_refl)) as [Hj0 Hj1].
  cbn [for_ fold_left].
  erewrite bind_inr;
    [|erewrite bind_inr by (apply getitem_nth with (d := d); lia);
      erewrite bind_inr by (apply getitem_nth with (d := d); lia);
      erewrite bind_inr by reflexivity;
      reflexivity].
  apply IH. intros k Hk. apply Hjs. now right.
Qed.

Lemma integrate_midpoint_fold (g : T -> T) (a b : T) (n : Z) :
  (1 <= n)%Z ->
  exists x,
    outcome (linspace (E:=E) F a b (n + 1)) = inr x
    /\ outcome (integrate_midpoint F (pure (E:=E) g) a b n)
       = inr (fold_left
                (fun acc j =>
                   add F acc
                     (mul F (g (div F (add F (nth (Z.to_nat j) x (of_int F 0))
                                             (nth (Z.to_nat (j + 1)) x (of_int F 0)))
                                  (of_int F 2)))
                        (div F (sub F b a) (of_int F n))))
                (range n) (of_int F 0)).
Proof.
  intros Hn.
  destruct (@linspace_length T E F a b (n + 1) [] ltac:(lia)) as (x & Hx & Hlen).
  exists x. unfold outcome. rewrite Hx. split; [reflexivity|].
  unfold integrate_midpoint.
  erewrite bind_inr by exact Hx.
  erewrite bind_inr
    by (unfold truediv; destruct (Z.eqb_spec n 0); [lia|reflexivity]).
  apply loop_fold. intros j Hj. apply range_In in Hj. lia.
Qed.

End Folding.

(** ** The grid in exact arithmetic *)

Section Exact.

Variable E : Type.
Implicit Types (f : R -> E + R) (a b : R) (n j : Z) (log : list R).

Lemma IZR_pos_neq n : (1 <= n)%Z -> IZR n <> 0.
Proof. intros H. apply not_0_IZR. lia. Qed.

Lemma linspace_exact a b n log :
  (1 <= n)%Z ->
  linspace (E:=E) exact a b (n + 1) log
  = (inr (grid a b n), log).
Proof.
  intros Hn. pose proof (IZR_pos_neq Hn) as Hz.
  unfold linspace.
  destruct (Z.ltb_spec (n + 1) 0); [lia|].
  replace (n + 1 - 1)%Z with n by lia.
  destruct (Z.ltb_spec 0 n); [|lia].
  destruct (Z.ltb_spec 1 (n + 1)); [|lia].
  unfold ret, set_last, grid. do 2 f_equal.
  rewrite range_succ by lia.
  cbn [exact of_int add sub mul div is_zero].
  destruct (Req_dec_T ((b - a) / IZR n) 0) as [Hs|Hs];
    rewrite !map_map, map_app; cbn [map]; rewrite removelast_last;
    f_equal; apply map_ext; intros j; unfold node, width; field; exact Hz.
Qed.

Lemma grid_length a b n : (0 <= n)%Z -> Z.of_nat (length (grid a b n)) = (n + 1)%Z.
Proof.
  intros H. unfold grid. rewrite length_app, length_map, range_length. simpl. lia.
Qed.

Lemma node_last a b n : (1 <= n)%Z -> node a b n n = b.
Proof. intros H. unfold node, width. field. now apply IZR_pos_neq. Qed.

Lemma grid_nth_error a b n j :
  (1 <= n)%Z -> (0 <= j <= n)%Z ->
  nth_error (grid a b n) (Z.to_nat j) = Some (node a b n j).
Proof.
  intros Hn Hj. unfold grid.
  destruct (Z.eq_dec j n) as [->|Hne].
  - rewrite nth_error_app2 by (rewrite length_map, range_length; lia).
    rewrite length_map, range_length, Nat.sub_diag. simpl.
    now rewrite node_last.
  - rewrite nth_error_app1 by (rewrite length_map, range_length; lia).
    apply range_nth_error. lia.
Qed.

(** Every index the loop uses is inside the grid. *)
Lemma getitem_grid a b n j log :
  (1 <= n)%Z -> (0 <= j <= n)%Z ->
  getitem (E:=E) (grid a b n) j log = (inr (node a b n j), log).
Proof.
  intros Hn Hj. unfold getitem.
  rewrite grid_length by lia.
  destruct (Z.ltb_spec j 0); [lia|].
  destruct (Z.ltb_spec j 0); [lia|].
  destruct (Z.leb_spec (n + 1) j); [lia|]. simpl.
  now rewrite grid_nth_error.
Qed.

Lemma midpoint_nodes a b n j :
  (1 <= n)%Z -> (node a b n j + node a b n (j + 1)) / 2 = midpoint a b n j.
Proof.
  intros Hn. unfold node, midpoint, width. rewrite plus_IZR. field.
  now apply IZR_pos_neq.
Qed.

(** One pass of the loop body at index [j] of the grid. *)
Lemma body_exact f a b n dx j integral log :
  (1 <= n)%Z -> (0 <= j < n)%Z ->
  bind (getitem (grid a b n) j) (fun xj =>
  bind (getitem (grid a b n) (j + 1)) (fun xj1 =>
  bind (truediv exact (add exact xj xj1) 2) (fun xmid =>
  bind (call f xmid) (fun fx =>
  ret (add exact integral (mul exact fx dx)))))) log
  = term f dx (midpoint a b n j) integral log.
Proof.
  intros Hn Hj.
  erewrite bind_inr by (apply getitem_grid; lia).
  erewrite bind_inr by (apply getitem_grid; lia).
  erewrite bind_inr by reflexivity.
  cbn [exact add div of_int mul].
  now rewrite midpoint_nodes.
Qed.

(** The loop over the grid is the loop over the midpoints. *)
Lemma loop_exact f a b n dx js integral log :
  (1 <= n)%Z -> (forall j, In j js -> (0 <= j < n)%Z) ->
  for_ js (fun j integral =>
    bind (getitem (grid a b n) j) (fun xj =>
    bind (getitem (grid a b n) (j + 1)) (fun xj1 =>
    bind (truediv exact (add exact xj xj1) 2) (fun xmid =>
    bind (call f xmid) (fun fx =>
    ret (add exact integral (mul exact fx dx))))))) integral log
  = for_ js (fun j => term f dx (midpoint a b n j)) integral log.
Proof.
  intros Hn Hjs. apply for_ext. intros j Hj s l.
  apply body_exact; auto.
Qed.

Lemma integrate_midpoint_exact f a b n log :
  (1 <= n)%Z ->
  integrate_midpoint exact f a b n log
  = for_ (range n) (fun j => term f (width a b n) (midpoint a b n j)) 0 log.
Proof.
  intros Hn. unfold integrate_midpoint.
  unfold bind at 1. rewrite linspace_exact by lia.
  unfold bind at 1, truediv.
  destruct (Z.eqb_spec n 0); [lia|].
  cbn [ret exact sub div of_int].
  apply loop_exact; [lia|]. intros j. apply range_In.
Qed.

(** An integrand that never raises: the loop is a left fold, and the log
    gains the midpoints in order. *)
Lemma loop_pure (g : R -> R) dx (mid : Z -> R) js :
  forall integral log,
    for_ js (fun j => term (pure (E:=E) g) dx (mid j)) integral log
    = (inr (fold_left (fun acc j => acc + g (mid j) * dx) js integral),
       log ++ map mid js).
Proof.
  induction js as [|j js IH]; intros integral log; cbn [for_ fold_left map].
  - unfold ret. now rewrite app_nil_r.
  - unfold bind at 1, term, bind, call, pure, ret. rewrite IH.
    now rewrite <- app_assoc.
Qed.

Lemma integrate_midpoint_pure (g : R -> R) a b n :
  (1 <= n)%Z ->
  integrate_midpoint exact (pure (E:=E) g) a b n []
  = (inr (midpoint_sum g a b n), map (midpoint a b n) (range n)).
Proof.
  intros Hn. rewrite integrate_midpoint_exact by lia.
  now rewrite loop_pure.
Qed.

End Exact.

(** ** Sums over a range *)

Lemma fold_left_sumR {A} (h : A -> R) (js : list A) (s : R) :
  fold_left (fun acc j => acc + h j) js s = s + sumR (map h js).
Proof.
  revert s. induction js as [|j js IH]; intros s; cbn [fold_left map sumR].
  - lra.
  - rewrite IH. lra.
Qed.

Lemma sumR_app (l1 l2 : list R) : sumR (l1 ++ l2) = sumR l1 + sumR l2.
Proof.
  induction l1 as [|x l1 IH]; cbn [app sumR].
  - lra.
  - rewrite IH. lra.
Qed.

Lemma sumR_map_ext {A} (h1 h2 : A -> R) (js : list A) :
  (forall j, In j js -> h1 j = h2 j) -> sumR (map h1 js) = sumR (map h2 js).
Proof. intros H. f_equal. now apply map_ext_in. Qed.

Lemma sumR_map_opp {A} (h : A -> R) (js : list A) :
  sumR (map (fun j => - h j) js) = - sumR (map h js).
Proof.
  induction js as [|j js IH]; cbn [map sumR]; lra.
Qed.



Lemma midpoint_sum_sumR (g : R -> R) (a b : R) (n : Z) :
  midpoint_sum g a b n
  = sumR (map (fun j => g (midpoint a b n j) * width a b n) (range n)).
Proof. unfold midpoint_sum. rewrite fold_left_sumR. lra. Qed.




(** ** Failing integrands *)

Section Failure.

Variable E : Type.
Variables (f : R -> E + R) (dx : R) (mid : Z -> R).

(** The loop stops at the first midpoint where [f] raises. *)
Lemma loop_fail js1 j js2 e :
  (forall i, In i js1 -> exists v, f (mid i) = inr v) ->
  f (mid j) = inl e ->
  forall integral log,
    for_ (js1 ++ j :: js2) (fun j => term f dx (mid j)) integral log
    = (inl (Raised e), log ++ map mid (js1 ++ [j])).
Proof.
  intros Hok Hj. induction js1 as [|i js1 IH]; intros integral log.
  - cbn [app for_ map]. unfold bind, term, bind, call. now rewrite Hj.
  - destruct (Hok i) as [v Hv]; [now left|].
    cbn [app for_ map]. unfold bind at 1. unfold term at 1, bind, call.
    rewrite Hv. unfold ret. rewrite IH.
    + now rewrite <- app_assoc.
    + intros k Hk. apply Hok. now right.
Qed.

(** Below any bound, either [f] succeeds throughout or there is a first
    index where it raises. *)
Lemma first_failure (N : nat) :
  (forall i, (0 <= i < Z.of_nat N)%Z -> exists v, f (mid i) = inr v)
  \/ (exists j e, (0 <= j < Z.of_nat N)%Z /\ f (mid j) = inl e /\
        forall i, (0 <= i < j)%Z -> exists v, f (mid i) = inr v).
Proof.
  induction N as [|N [IH|IH]].
  - left. intros i Hi. lia.
  - destruct (f (mid (Z.of_nat N))) as [e|v] eqn:HN.
    + right. exists (Z.of_nat N), e.
      split; [lia|]. split; [exact HN|].
      intros i Hi. apply IH. lia.
    + left. intros i Hi.
      destruct (Z.eq_dec i (Z.of_nat N)) as [->|Hne]; [now exists v|].
      apply IH. lia.
  - right. destruct IH as (j & e & Hj & He & Hmin).
    exists j, e. split; [lia|]. now split.
Qed.

End Failure.

Lemma range_split (n j : Z) :
  (0 <= j < n)%Z -> exists rest, range n = range j ++ j :: rest.
Proof.
  intros H. unfold range.
  replace (Z.to_nat n) with (Z.to_nat j + S (Z.to_nat (n - j - 1)))%nat by lia.
  rewrite seq_app, map_app. cbn [seq map Nat.add].
  rewrite Z2Nat.id by lia. eauto.
Qed.

(** ** Linear integrands and the position of the midpoints *)

Lemma linear_partial_sum (m k a w : R) (N : nat) :
  fold_left (fun acc j => acc + (m * (a + IZR j * w + w / 2) + k) * w)
    (range (Z.of_nat N)) 0
  = w * (m * (a * IZR (Z.of_nat N) + w * IZR (Z.of_nat N) * IZR (Z.of_nat N) / 2)
         + k * IZR (Z.of_nat N)).
Proof.
  induction N as [|N IH].
  - cbn. lra.
  - replace (Z.of_nat (S N)) with (Z.of_nat N + 1)%Z by lia.
    rewrite range_succ by lia. rewrite fold_left_app, IH. cbn [fold_left].
    rewrite plus_IZR. lra.
Qed.

Lemma midpoint_affine (a b : R) (n j : Z) :
  (1 <= n)%Z ->
  midpoint a b n j = a + (IZR j + / 2) / IZR n * (b - a).
Proof.
  intros Hn. unfold midpoint, width. field. apply not_0_IZR. lia.
Qed.

Lemma midpoint_fraction (n j : Z) :
  (0 <= j < n)%Z -> 0 < (IZR j + / 2) / IZR n < 1.
Proof.
  intros H.
  assert (Hj : 0 <= IZR j) by (apply IZR_le; lia).
  assert (Hjn : IZR j <= IZR n - 1) by (rewrite <- minus_IZR; apply IZR_le; lia).
  assert (Hn : 0 < IZR n) by (apply IZR_lt; lia).
  split.
  - apply Rdiv_lt_0_compat; lra.
  - apply Rmult_lt_reg_r with (IZR n); [exact Hn|].
    unfold Rdiv. rewrite Rmult_assoc, Rinv_l by lra. lra.
Qed.

Lemma midpoint_inside (a b : R) (n j : Z) :
  (0 <= j < n)%Z -> a <> b ->
  Rmin a b < midpoint a b n j < Rmax a b.
Proof.
  intros Hj Hab. rewrite midpoint_affine by lia.
  pose proof (midpoint_fraction Hj) as [Ht0 Ht1].
  set (t := (IZR j + / 2) / IZR n) in *.
  destruct (Rtotal_order a b) as [Hlt|[Heq|Hgt]]; [|contradiction|].
  - rewrite Rmin_left, Rmax_right by lra. split; nra.
  - rewrite Rmin_right, Rmax_left by lra. split; nra.
Qed.

Lemma midpoint_sum_linear (m k a b : R) (n : Z) :
  (1 <= n)%Z ->
  midpoint_sum (fun x => m * x + k) a b n
  = m * (b * b - a * a) / 2 + k * (b - a).
Proof.
  intros Hn. destruct (Z_of_nat_complete n) as [N ->]; [lia|].
  unfold midpoint_sum, midpoint. rewrite linear_partial_sum.
  unfold width. field. apply not_0_IZR. lia.
Qed.

(** ** More sums *)

Lemma sumR_map_plus {A} (h1 h2 : A -> R) (js : list A) :
  sumR (map (fun j => h1 j + h2 j) js) = sumR (map h1 js) + sumR (map h2 js).
Proof. induction js as [|j js IH]; cbn [map sumR]; [lra|rewrite IH; lra]. Qed.

Lemma sumR_map_scale {A} (h : A -> R) (c : R) (js : list A) :
  sumR (map (fun j => c * h j) js) = c * sumR (map h js).
Proof. induction js as [|j js IH]; cbn [map sumR]; [lra|rewrite IH; lra]. Qed.

Lemma sumR_map_const {A} (c : R) (js : list A) :
  sumR (map (fun _ => c) js) = INR (length js) * c.
Proof.
  induction js as [|j js IH]; [cbn; lra|].
  cbn [map sumR length]. rewrite IH, S_INR. lra.
Qed.

Lemma sumR_map_le {A} (h1 h2 : A -> R) (js : list A) :
  (forall j, In j js -> h1 j <= h2 j) ->
  sumR (map h1 js) <= sumR (map h2 js).
Proof.
  induction js as [|j js IH]; intros H; cbn [map sumR]; [lra|].
  pose proof (H j (or_introl eq_refl)).
  assert (sumR (map h1 js) <= sumR (map h2 js))
    by (apply IH; intros; apply H; now right).
  lra.
Qed.

Lemma sumR_map_nonneg {A} (h : A -> R) (js : list A) :
  (forall j, In j js -> 0 <= h j) -> 0 <= sumR (map h js).
Proof.
  intros H. induction js as [|j js IH]; cbn [map sumR]; [lra|].
  pose proof (H j (or_introl eq_refl)).
  assert (0 <= sumR (map h js)) by (apply IH; intros; apply H; now right).
  lra.
Qed.

Lemma sumR_map_abs {A} (w d : A -> R) (delta : R) (js : list A) :
  (forall j, In j js -> Rabs (d j) <= delta) ->
  Rabs (sumR (map (fun j => w j * d j) js))
  <= delta * sumR (map (fun j => Rabs (w j)) js).
Proof.
  induction js as [|j js IH]; intros H; cbn [map sumR].
  - rewrite Rabs_R0. lra.
  - pose proof (H j (or_introl eq_refl)) as Hj.
    assert (IH' := IH (fun k Hk => H k (or_intror Hk))).
    eapply Rle_trans; [apply Rabs_triang|].
    rewrite Rabs_mult.
    pose proof (Rabs_pos (w j)). pose proof (Rabs_pos (d j)).
    nra.
Qed.

Lemma combine_map {A} (X Y : A -> R) (ns : list A) :
  combine (map X ns) (map Y ns) = map (fun n => (X n, Y n)) ns.
Proof. induction ns as [|n ns IH]; cbn; [reflexivity|now rewrite IH]. Qed.

(** ** Pi, sine and logarithm: numeric bounds *)

Lemma PI_bounds : 3.1415926 < PI < 3.1415927.
Proof.
  pose proof (PI_2_3_7_ineq 3) as H.
  unfold sum_f_R0, tg_alt, PI_2_3_7_tg, Ratan_seq in H.
  cbn [Nat.mul Nat.add pow] in H. simpl in H. lra.
Qed.

Lemma sin_bounds (x : R) :
  0 <= x <= 1 ->
  x - x ^ 3 / 6 <= sin x <= x - x ^ 3 / 6 + x ^ 5 / 120.
Proof.
  intros Hx. pose proof (pre_sin_bound x 0) as H.
  unfold sin_approx, sum_f_R0, sin_term in H.
  cbn [Nat.mul Nat.add pow fact] in H. simpl in H.
  assert (H' := H ltac:(lra) ltac:(lra)). lra.
Qed.

Lemma ln_le_sub1 (y : R) : 0 < y -> ln y <= y - 1.
Proof.
  intros Hy. pose proof (exp_ineq1_le (ln y)) as H.
  rewrite exp_ln in H by exact Hy. lra.
Qed.

Lemma ln_ge (k y : R) : exp k <= y -> k <= ln y.
Proof.
  intros H. rewrite <- (ln_exp k).
  destruct H as [H|H].
  - left. apply ln_increasing; [apply exp_pos|exact H].
  - right. now rewrite H.
Qed.

Lemma ln_monotone (x y : R) : 0 < x -> x <= y -> ln x <= ln y.
Proof.
  intros Hx [H|H]; [left; now apply ln_increasing|right; now rewrite H].
Qed.

Lemma exp_3_le : exp 3 <= 27.
Proof.
  replace 3 with (1 + (1 + 1)) by lra. rewrite !exp_plus.
  pose proof exp_le_3. pose proof (exp_pos 1). nra.
Qed.

Lemma exp_4_le : exp 4 <= 81.
Proof.
  replace 4 with (1 + 3) by lra. rewrite exp_plus.
  pose proof exp_le_3. pose proof exp_3_le.
  pose proof (exp_pos 1). pose proof (exp_pos 3). nra.
Qed.

Lemma ln_spread_outer : 4 <= ln 1000 - ln 10.
Proof.
  replace 1000 with (10 * 100) by lra. rewrite ln_mult by lra.
  pose proof (@ln_ge 4 100 ltac:(pose proof exp_4_le; lra)). lra.
Qed.

Lemma ln_spread_inner : 3 <= ln 990 - ln 20.
Proof.
  replace 990 with (20 * 49.5) by lra. rewrite ln_mult by lra.
  pose proof (@ln_ge 3 49.5 ltac:(pose proof exp_3_le; lra)). lra.
Qed.

(** ** The rule on the sine over [[0, pi]] *)

(** Telescoping: [2 sin(h/2) sin((j + 1/2) h) = cos(j h) - cos((j + 1) h)]. *)
Lemma sin_midpoints_telescope (h : R) (N : nat) :
  2 * sin (h / 2)
  * sumR (map (fun j => sin (IZR j * h + h / 2)) (range (Z.of_nat N)))
  = 1 - cos (IZR (Z.of_nat N) * h).
Proof.
  induction N as [|N IH].
  - cbn. rewrite Rmult_0_l, cos_0. lra.
  - replace (Z.of_nat (S N)) with (Z.of_nat N + 1)%Z by lia.
    rewrite range_succ by lia. rewrite map_app, sumR_app. cbn [map sumR].
    rewrite Rmult_plus_distr_l, IH, plus_IZR.
    set (A := IZR (Z.of_nat N) * h + h / 2).
    replace (IZR (Z.of_nat N) * h) with (A - h / 2) by (unfold A; lra).
    replace ((IZR (Z.of_nat N) + 1) * h) with (A + h / 2) by (unfold A; lra).
    rewrite cos_minus, cos_plus. lra.
Qed.

(** In closed form the sum is [(pi/n) / sin(pi/(2n))]. *)
Lemma midpoint_sum_sin (n : Z) :
  (1 <= n)%Z ->
  midpoint_sum sin 0 PI n * sin (PI / IZR n / 2) = PI / IZR n.
Proof.
  intros Hn. assert (Hz : IZR n <> 0) by (apply not_0_IZR; lia).
  rewrite midpoint_sum_sumR. unfold midpoint, width.
  rewrite Rminus_0_r.
  rewrite (sumR_map_ext _
             (fun j => PI / IZR n * sin (IZR j * (PI / IZR n) + PI / IZR n / 2)))
    by (intros j _; rewrite Rplus_0_l; ring).
  rewrite sumR_map_scale.
  destruct (Z_of_nat_complete n) as [N HN]; [lia|].
  pose proof (sin_midpoints_telescope (PI / IZR n) N) as H.
  rewrite <- HN in H.
  replace (IZR n * (PI / IZR n)) with PI in H by (field; exact Hz).
  rewrite cos_PI in H.
  set (S := sumR _) in *. set (s := sin _) in *.
  assert (HS : S * s = 1) by lra.
  rewrite Rmult_assoc, HS. lra.
Qed.

(** The error, scaled by [n^2], stays close to [pi^2/12]. *)
Lemma sin_error_scaled (n : Z) :
  (10 <= n)%Z ->
  PI * PI / 12 * 0.998765
  <= Rabs (2 - midpoint_sum sin 0 PI n) * (IZR n * IZR n)
  <= PI * PI / 12 / 0.995883.
Proof.
  intros Hn.
  pose proof (@midpoint_sum_sin n ltac:(lia)) as H.
  set (v := midpoint_sum sin 0 PI n) in *.
  assert (Hz : 10 <= IZR n) by (apply IZR_le; exact Hn).
  pose proof PI_bounds as [Hlo Hhi].
  set (z := IZR n) in *.
  set (t := PI / z / 2) in *.
  assert (Htz : t * z = PI / 2) by (unfold t; field; lra).
  assert (Ht0 : 0 < t).
  { unfold t. apply Rdiv_lt_0_compat; [|lra]. apply Rdiv_lt_0_compat; lra. }
  assert (Ht1 : t <= 0.157079635).
  { apply Rmult_le_reg_r with z; [lra|]. rewrite Htz. nra. }
  destruct (@sin_bounds t ltac:(lra)) as [Hsl Hsu].
  assert (Hv : v * sin t = 2 * t) by (unfold t in *; lra).
  set (s := sin t) in *.
  set (q := t * t).
  assert (Hq : 0 < q <= 0.0247) by (unfold q; nra).
  replace (t ^ 3) with (t * q) in * by (unfold q; ring).
  replace (t ^ 5) with (t * (q * q)) in * by (unfold q; ring).
  assert (Hs0 : 0 < s) by nra.
  assert (Hst : s <= t) by nra.
  assert (Hv2 : 2 <= v).
  { apply Rmult_le_reg_r with s; [exact Hs0|]. nra. }
  rewrite Rabs_left1 by lra.
  replace (- (2 - v)) with (v - 2) by lra.
  set (err := v - 2).
  assert (Herr : err * s = 2 * (t - s)) by (unfold err; lra).
  assert (Herr0 : 0 <= err) by (unfold err; lra).
  assert (Hlow : q / 3 * (1 - q / 20) <= err).
  { apply Rmult_le_reg_r with t; [exact Ht0|].
    apply Rle_trans with (err * s); [|nra].
    rewrite Herr. unfold q in *. nra. }
  assert (Hupp : err * (1 - q / 6) <= q / 3).
  { apply Rmult_le_reg_r with t; [exact Ht0|].
    apply Rle_trans with (err * s).
    - replace (err * (1 - q / 6) * t) with (err * (t - t * q / 6)) by field.
      apply Rmult_le_compat_l; [exact Herr0|]. lra.
    - rewrite Herr. unfold q in *. nra. }
  assert (Hqz : q * (z * z) = PI * PI / 4).
  { unfold q. replace (t * t * (z * z)) with ((t * z) * (t * z)) by ring.
    rewrite Htz. field. }
  assert (Hzz : 0 < z * z) by nra.
  split.
  - apply Rle_trans with (q / 3 * (1 - q / 20) * (z * z)).
    + replace (q / 3 * (1 - q / 20) * (z * z))
        with (q * (z * z) / 3 * (1 - q / 20)) by field.
      rewrite Hqz.
      replace (PI * PI / 4 / 3) with (PI * PI / 12) by field.
      apply Rmult_le_compat_l; [nra|lra].
    + apply Rmult_le_compat_r; [lra|exact Hlow].
  - apply Rmult_le_reg_r with 0.995883; [lra|].
    replace (PI * PI / 12 / 0.995883 * 0.995883) with (q * (z * z) / 3)
      by (rewrite Hqz; field; lra).
    apply Rle_trans with (err * (1 - q / 6) * (z * z)).
    + rewrite (Rmult_comm (err * (z * z))), <- Rmult_assoc.
      rewrite (Rmult_comm 0.995883). rewrite !Rmult_assoc.
      apply Rmult_le_compat_l; [exact Herr0|].
      apply Rmult_le_compat_r; lra.
    + replace (q * (z * z) / 3) with (q / 3 * (z * z)) by field.
      apply Rmult_le_compat_r; [lra|exact Hupp].
Qed.

(** No sampled error is zero, so every logarithm is taken of a positive
    number. *)
Lemma sin_error_pos (n : Z) :
  (10 <= n)%Z -> 0 < Rabs (2 - midpoint_sum sin 0 PI n).
Proof.
  intros Hn. destruct (sin_error_scaled Hn) as [Hlo _].
  assert (Hz : 10 <= IZR n) by (apply IZR_le; exact Hn).
  pose proof PI_bounds as [Hp1 Hp2].
  set (err := Rabs (2 - midpoint_sum sin 0 PI n)) in *.
  assert (Hzz : 0 < IZR n * IZR n) by nra.
  destruct (Rle_lt_dec err 0) as [H|H]; [|exact H]. exfalso. nra.
Qed.

(** The residuals of [ln error] against the line of slope [-2]. *)
Lemma ln_error_residual (n : Z) :
  (10 <= n)%Z ->
  Rabs (ln (Rabs (2 - midpoint_sum sin 0 PI n))
        - (ln (PI * PI / 12 * 0.998765) + 0.0027) + 2 * ln (IZR n) - 0)
  <= 0.0027.
Proof.
  intros Hn. destruct (sin_error_scaled Hn) as [Hlo Hhi].
  assert (Hz : 10 <= IZR n) by (apply IZR_le; exact Hn).
  pose proof PI_bounds as [Hp1 Hp2].
  set (err := Rabs (2 - midpoint_sum sin 0 PI n)) in *.
  set (z := IZR n) in *.
  set (A := PI * PI / 12 * 0.998765) in *.
  assert (HA : 0 < A) by (unfold A; nra).
  assert (Hzz : 0 < z * z) by nra.
  assert (Herr : 0 < err) by (apply sin_error_pos; exact Hn).
  assert (Hln : ln (err * (z * z)) = ln err + 2 * ln z).
  { rewrite ln_mult by lra. rewrite ln_mult by lra. lra. }
  assert (H1 : ln A <= ln (err * (z * z))) by now apply ln_monotone.
  assert (H2 : ln (err * (z * z)) <= ln A + 0.0054).
  { apply Rle_trans with (ln (A * (/ (0.998765 * 0.995883)))).
    - apply ln_monotone; [nra|].
      eapply Rle_trans; [exact Hhi|]. apply Req_le. unfold A. field; lra.
    - rewrite ln_mult; [|exact HA|apply Rinv_0_lt_compat; lra].
      pose proof (@ln_le_sub1 (/ (0.998765 * 0.995883))
                    ltac:(apply Rinv_0_lt_compat; lra)) as Hr.
      assert (/ (0.998765 * 0.995883) - 1 <= 0.0054).
      { apply Rmult_le_reg_r with (0.998765 * 0.995883); [lra|].
        rewrite Rmult_minus_distr_r, Rinv_l by lra. lra. }
      lra. }
  apply Rabs_le. lra.
Qed.

(** ** The least-squares slope *)

Section Fit.

Variable A : Type.
Variable ns : list A.
Variables X Y : A -> R.

Lemma polyfit_slope_map :
  polyfit_slope (map X ns) (map Y ns)
  = (INR (length ns) * total ns (fun n => X n * Y n) - total ns X * total ns Y)
    / spread ns X.
Proof.
  unfold polyfit_slope, spread, total.
  now rewrite combine_map, !map_map, length_map.
Qed.

Lemma total_plus (h1 h2 : A -> R) :
  total ns (fun n => h1 n + h2 n) = total ns h1 + total ns h2.
Proof. apply sumR_map_plus. Qed.

Lemma total_scale (c : R) (h : A -> R) :
  total ns (fun n => c * h n) = c * total ns h.
Proof. apply sumR_map_scale. Qed.

Lemma total_const (c : R) : total ns (fun _ => c) = INR (length ns) * c.
Proof. apply sumR_map_const. Qed.

Lemma total_ext (h1 h2 : A -> R) :
  (forall n, In n ns -> h1 n = h2 n) -> total ns h1 = total ns h2.
Proof. apply sumR_map_ext. Qed.

Lemma total_centred : total ns (centred ns X) = 0.
Proof.
  rewrite (total_ext _ (fun n => INR (length ns) * X n + - total ns X))
    by (intros; unfold centred; lra).
  rewrite total_plus, total_scale, total_const. lra.
Qed.

Lemma total_centred_sq :
  total ns (fun n => centred ns X n * centred ns X n)
  = INR (length ns) * spread ns X.
Proof.
  set (N := INR (length ns)). set (sx := total ns X).
  rewrite (total_ext _ (fun n => N * N * (X n * X n)
                                 + (- (2 * N * sx) * X n + sx * sx)))
    by (intros n _; unfold centred; fold N; fold sx; ring).
  rewrite !total_plus, !total_scale, total_const.
  unfold spread. fold N. fold sx. ring.
Qed.

Lemma total_abs_centred (t : R) :
  0 < t ->
  total ns (fun n => Rabs (centred ns X n))
  <= INR (length ns) * spread ns X / (2 * t) + INR (length ns) * t / 2.
Proof.
  intros Ht.
  apply Rle_trans
    with (total ns (fun n => / (2 * t) * (centred ns X n * centred ns X n) + t / 2)).
  - apply sumR_map_le. intros n _.
    set (w := centred ns X n).
    pose proof (Rle_0_sqr (Rabs w - t)) as H. unfold Rsqr in H.
    assert (Hsq : Rabs w * Rabs w = w * w).
    { rewrite <- Rabs_mult. apply Rabs_pos_eq. exact (Rle_0_sqr w). }
    apply Rmult_le_reg_l with (2 * t); [lra|].
    replace (2 * t * (/ (2 * t) * (w * w) + t / 2))
      with (w * w + t * t) by (field; lra).
    lra.
  - rewrite total_plus, total_scale, total_const, total_centred_sq.
    apply Req_le. field. lra.
Qed.

(** With [Y = c + k X + e] the slope is [k] plus the slope of [e]. *)
Lemma slope_numerator (c k : R) (e : A -> R) (c' : R) :
  (forall n, In n ns -> Y n = c + k * X n + e n) ->
  INR (length ns) * total ns (fun n => X n * Y n) - total ns X * total ns Y
  = k * spread ns X + total ns (fun n => centred ns X n * (e n - c')).
Proof.
  intros HY. set (N := INR (length ns)).
  assert (HSY : total ns Y = N * c + k * total ns X + total ns e).
  { rewrite (total_ext _ (fun n => c + (k * X n + e n)))
      by (intros n Hn; rewrite HY by exact Hn; lra).
    rewrite !total_plus, total_const, total_scale. fold N. lra. }
  assert (HSXY : total ns (fun n => X n * Y n)
                 = c * total ns X
                   + (k * total ns (fun n => X n * X n)
                      + total ns (fun n => X n * e n))).
  { rewrite (total_ext _ (fun n => c * X n + (k * (X n * X n) + X n * e n)))
      by (intros n Hn; rewrite HY by exact Hn; ring).
    now rewrite !total_plus, !total_scale. }
  assert (HW : total ns (fun n => centred ns X n * (e n - c'))
               = N * total ns (fun n => X n * e n) - total ns X * total ns e).
  { rewrite (total_ext _ (fun n => N * (X n * e n)
                                   + (- total ns X * e n + - c' * centred ns X n)))
      by (intros n _; unfold centred; fold N; ring).
    rewrite !total_plus, !total_scale, total_centred. ring. }
  rewrite HSY, HSXY, HW. unfold spread. fold N. ring.
Qed.

(** How far the fitted slope is from [k] when the residuals [e] stay within
    [delta] of a constant. *)
Lemma slope_bound (c k : R) (e : A -> R) (c' delta t : R) :
  (forall n, In n ns -> Y n = c + k * X n + e n) ->
  0 < t -> 0 < spread ns X ->
  (forall n, In n ns -> Rabs (e n - c') <= delta) ->
  Rabs (polyfit_slope (map X ns) (map Y ns) - k) * spread ns X
  <= delta * (INR (length ns) * spread ns X / (2 * t) + INR (length ns) * t / 2).
Proof.
  intros HY Ht HD He.
  rewrite polyfit_slope_map, (@slope_numerator c k e c' HY).
  set (D := spread ns X) in *.
  set (W := total ns (fun n => centred ns X n * (e n - c'))).
  replace ((k * D + W) / D - k) with (W / D) by (field; lra).
  unfold Rdiv at 1.
  rewrite Rabs_mult, (Rabs_pos_eq (/ D)), Rmult_assoc, Rinv_l, Rmult_1_r;
    [|lra|left; now apply Rinv_0_lt_compat].
  eapply Rle_trans; [apply sumR_map_abs; exact He|].
  assert (0 <= delta).
  { destruct ns as [|n0 l].
    - unfold D, spread, total in HD. cbn in HD. lra.
    - eapply Rle_trans; [apply Rabs_pos|]. apply (He n0). now left. }
  apply Rmult_le_compat_l; [assumption|]. now apply total_abs_centred.
Qed.

(** The closed form is the least-squares line: with the matching intercept
    no other line has a smaller squared error. *)
Lemma polyfit_slope_least_squares (m' c' : R) :
  0 < spread ns X ->
  squared_error ns X Y
    (polyfit_slope (map X ns) (map Y ns))
    ((total ns Y - polyfit_slope (map X ns) (map Y ns) * total ns X)
     / INR (length ns))
  <= squared_error ns X Y m' c'.
Proof.
  intros HD. rewrite polyfit_slope_map.
  set (N := INR (length ns)). set (D := spread ns X) in *.
  set (sx := total ns X). set (sy := total ns Y).
  set (sxy := total ns (fun n => X n * Y n)).
  set (sxx := total ns (fun n => X n * X n)).
  set (m := (N * sxy - sx * sy) / D).
  set (c := (sy - m * sx) / N).
  assert (HN : 0 < N).
  { unfold N. destruct ns as [|n0 l].
    - unfold D, spread, total in HD. cbn in HD. lra.
    - apply lt_0_INR. cbn. lia. }
  assert (HDdef : D = N * sxx - sx * sx) by reflexivity.
  set (r := fun n => Y n - (m * X n + c)).
  set (d := fun n => (m - m') * X n + (c - c')).
  assert (Hr : total ns r = 0).
  { rewrite (total_ext _ (fun n => Y n + (- m * X n + - c)))
      by (intros; unfold r; lra).
    rewrite !total_plus, total_scale, total_const. fold N sx sy.
    unfold c. field. lra. }
  assert (Hrx : total ns (fun n => r n * X n) = 0).
  { rewrite (total_ext _ (fun n => X n * Y n + (- m * (X n * X n) + - c * X n)))
      by (intros; unfold r; ring).
    rewrite !total_plus, !total_scale. fold sx sxy sxx.
    unfold c, m. rewrite HDdef. field. split; lra. }
  assert (Hrd : total ns (fun n => r n * d n) = 0).
  { rewrite (total_ext _ (fun n => (m - m') * (r n * X n) + (c - c') * r n))
      by (intros; unfold d; ring).
    rewrite total_plus, !total_scale, Hr, Hrx. ring. }
  unfold squared_error.
  rewrite (total_ext (fun n => (Y n - (m' * X n + c')) * (Y n - (m' * X n + c')))
             (fun n => r n * r n + (2 * (r n * d n) + d n * d n)))
    by (intros; unfold r, d; ring).
  rewrite !total_plus, total_scale, Hrd.
  assert (0 <= total ns (fun n => d n * d n)).
  { apply sumR_map_nonneg. intros n _. exact (Rle_0_sqr (d n)). }
  fold (r) in |- *. unfold r at 1 2. lra.
Qed.

End Fit.

(** ** The sampled sub-interval counts *)

Lemma nvals_In (n : Z) : In n nvals -> (10 <= n <= 1000)%Z.
Proof.
  unfold nvals, arange. rewrite in_map_iff. intros [k [<- Hk]].
  apply range_In in Hk.
  change ((1010 - 10 + 10 - 1) / 10)%Z with 100%Z in Hk. lia.
Qed.

Lemma nvals_length : length nvals = 100%nat.
Proof. reflexivity. Qed.

Lemma nvals_ends :
  nvals = 10%Z :: 20%Z
          :: map (fun k => 10 + 10 * Z.of_nat k)%Z (seq 2 96) ++ [990%Z; 1000%Z].
Proof. reflexivity. Qed.

Lemma comprehension_outcome {T E B} (k : Z -> M T E B) (h : Z -> B) (ns : list Z) :
  (forall n, In n ns -> forall log, exists log', k n log = (inr (h n), log')) ->
  forall log, exists log', comprehension k ns log = (inr (map h ns), log').
Proof.
  induction ns as [|n ns IH]; intros H log; cbn [comprehension map].
  - now exists log.
  - destruct (H n (or_introl eq_refl) log) as [log1 H1].
    destruct (IH (fun m Hm => H m (or_intror Hm)) log1) as [log2 H2].
    exists log2. unfold bind. now rewrite H1, H2.
Qed.

Lemma integrals_outcome (E : Type) :
  outcome (integrals (E:=E)) = inr (map (midpoint_sum sin 0 PI) nvals).
Proof.
  unfold outcome, integrals.
  destruct (@comprehension_outcome R E R
              (fun n => integrate_midpoint exact (pure sin) 0 PI n)
              (midpoint_sum sin 0 PI) nvals) with (log := @nil R) as [log' H].
  - intros n Hn log. apply nvals_In in Hn.
    rewrite integrate_midpoint_exact by lia.
    rewrite loop_pure. eauto.
  - now rewrite H.
Qed.

Lemma sq_pair (a b d : R) : 0 <= d <= b - a -> d * d / 2 <= a * a + b * b.
Proof.
  intros H.
  pose proof (Rle_0_sqr (a + b)) as H1. unfold Rsqr in H1.
  assert (H2 : d * d <= (b - a) * (b - a)) by (apply Rmult_le_compat; lra).
  lra.
Qed.

(** The abscissas [ln n] are spread out enough for the fit to be stable. *)
Lemma ln_nvals_spread : 1250 <= spread nvals (fun n => ln (IZR n)).
Proof.
  pose proof (total_centred_sq nvals (fun n => ln (IZR n))) as H.
  set (D := spread nvals (fun n => ln (IZR n))) in *.
  unfold centred, total in H. rewrite nvals_length in H.
  replace (INR 100) with 100 in H by (simpl; lra).
  set (m := sumR (map (fun n => ln (IZR n)) nvals)) in *.
  rewrite nvals_ends in H.
  cbn [map sumR] in H. rewrite map_app, sumR_app in H. cbn [map sumR] in H.
  set (mid := sumR _) in H.
  assert (Hmid : 0 <= mid).
  { unfold mid. apply sumR_map_nonneg. intros j _. apply Rle_0_sqr. }
  pose proof ln_spread_outer as Ho. pose proof ln_spread_inner as Hi.
  pose proof (@sq_pair (100 * ln 10 - m) (100 * ln 1000 - m) 400 ltac:(lra)).
  pose proof (@sq_pair (100 * ln 20 - m) (100 * ln 990 - m) 300 ltac:(lra)).
  lra.
Qed.

(** ** Python numbers and NumPy scalars *)

Section Operands.

Variables T E : Type.
Variable F : float_ops T.
Variable f : T -> E + T.


(** With a count of at most zero the integrand is not called; at zero, the
    kind of the operands decides between an exception and the integer 0. *)
Lemma integrate_midpoint_on_below_one (o : operands) (a b : T) (n : Z) :
  (n <= 0)%Z ->
  integrate_midpoint_on F o f a b n []
  = (if (n <? -1)%Z then inl ValueError
     else if (n =? -1)%Z then inr (of_int F 0)
     else match o with
          | PythonNumbers => inl ZeroDivisionError
          | NumPyScalars => inr (of_int F 0)
          end, []).
Proof.
  intros Hn. unfold integrate_midpoint_on.
  destruct (Z.ltb_spec n (-1)) as [H1|H1].
  - unfold bind at 1, linspace.
    now destruct (Z.ltb_spec (n + 1) 0); [|lia].
  - destruct (Z.eqb_spec n (-1)) as [->|H2]; [now destruct o|].
    assert (n = 0%Z) as -> by lia. now destruct o.
Qed.

End Operands.

(** ** The program on doubles

    A few calls evaluated in [binary64], beside the general theorems. *)

(** One sub-interval of [[1, 3]] on [x * x]: [f(2) * 2]. *)
Lemma one_interval_binary64 :
  outcome (integrate_midpoint binary64 (pure (E:=Empty_set) (fun x => x * x)%float)
             1%float 3%float 1)
  = inr 8%float.
Proof. vm_compute. reflexivity. Qed.

(** [2 * x + 1] over [[0, 4]] with four sub-intervals: the integral, 20. *)
Lemma linear_binary64 :
  outcome (integrate_midpoint binary64
             (pure (E:=Empty_set) (fun x => 2 * x + 1)%float) 0%float 4%float 4)
  = inr 20%float.
Proof. vm_compute. reflexivity. Qed.

(** The points of evaluation over [[0, 1]] with four sub-intervals. *)
Lemma evaluations_binary64 :
  evaluations (integrate_midpoint binary64 (pure (E:=Empty_set) (fun x => x))
                 0%float 1%float 4)
  = [0.125; 0.375; 0.625; 0.875]%float.
Proof. vm_compute. reflexivity. Qed.

(** A zero-width interval. *)
Lemma degenerate_binary64 :
  outcome (integrate_midpoint binary64 (pure (E:=Empty_set) step_integrand)
             2%float 2%float 5)
  = inr 0%float.
Proof. vm_compute. reflexivity. Qed.

(** Swapping the bounds on the identity over [[0, 1]], three sub-intervals:
    the two results differ in the last place. *)
Lemma swap_identity_binary64 :
  outcome (integrate_midpoint binary64 (pure (E:=Empty_set) (fun x => x))
             0%float 1%float 3)
  = inr 0x1.fffffffffffffp-2%float
  /\ outcome (integrate_midpoint binary64 (pure (E:=Empty_set) (fun x => x))
                1%float 0%float 3)
     = inr (-0.5)%float.
Proof. vm_compute. split; reflexivity. Qed.

(** ** The claims *)

(** C1: for [n >= 1] the call returns the sum over [j = 0 .. n-1] of
    [g(x_{j+1/2}) * dx], accumulated from zero with [j] ascending, where
    [dx = (b - a)/n].  Whatever the arithmetic, [x_{j+1/2}] is the mean
    [(x_j + x_{j+1})/2] of two neighbours of the grid; in exact arithmetic
    that is [a + j*dx + dx/2]. *)
Theorem integrate_midpoint_sum (n : Z) :
  (1 <= n)%Z ->
  (forall (T E : Type) (F : float_ops T) (g : T -> T) (a b : T),
     exists x,
       outcome (linspace (E:=E) F a b (n + 1)) = inr x
       /\ outcome (integrate_midpoint F (pure (E:=E) g) a b n)
          = inr (fold_left
                   (fun acc j =>
                      add F acc
                        (mul F
                           (g (div F (add F (nth (Z.to_nat j) x (of_int F 0))
                                            (nth (Z.to_nat (j + 1)) x (of_int F 0)))
                                 (of_int F 2)))
                           (div F (sub F b a) (of_int F n))))
                   (range n) (of_int F 0)))
  /\ (forall (E : Type) (g : R -> R) (a b : R),
        outcome (integrate_midpoint exact (pure (E:=E) g) a b n)
        = inr (fold_left
                 (fun acc j =>
                    acc + g (a + IZR j * ((b - a) / IZR n) + (b - a) / IZR n / 2)
                          * ((b - a) / IZR n))
                 (range n) 0)
        /\ forall j,
             a + IZR j * ((b - a) / IZR n) + (b - a) / IZR n / 2
             = ((a + IZR j * ((b - a) / IZR n))
                + (a + IZR (j + 1) * ((b - a) / IZR n))) / 2).
Proof.
  intros Hn. split.
  - intros T E F g a b. now apply integrate_midpoint_fold.
  - intros E g a b. split.
    + unfold outcome. now rewrite integrate_midpoint_pure.
    + intros j. rewrite plus_IZR. field. apply not_0_IZR. lia.
Qed.

Lemma integrate_midpoint_sum_witness :
  (1 <= 2)%Z /\
  outcome (integrate_midpoint exact (pure (E:=Empty_set) (fun x => x * x)) 0 1 2)
  = inr (fold_left
           (fun acc j =>
              acc + (0 + IZR j * ((1 - 0) / IZR 2) + (1 - 0) / IZR 2 / 2)
                    * (0 + IZR j * ((1 - 0) / IZR 2) + (1 - 0) / IZR 2 / 2)
                    * ((1 - 0) / IZR 2))
           (range 2) 0).
Proof.
  assert (H : (1 <= 2)%Z) by lia.
  split; [exact H|].
  destruct (@integrate_midpoint_sum 2 H) as [_ Hexact].
  apply (Hexact Empty_set (fun x => x * x) 0 1).
Defined.

(** C2, in exact arithmetic: the convergence check samples
    [n = 10, 20, ..., 1000], every error [|2 - I_n|] is positive, and the
    slope of the least-squares line of [ln |2 - I_n|] against [ln n] for the
    sine over [[0, pi]] is within [0.01] of [-2]. *)
Theorem powerlaw_index_order (E : Type) :
  nvals = map (fun k => 10 * Z.of_nat k)%Z (seq 1 100)
  /\ (exists vs,
        outcome (integrals (E:=E)) = inr vs
        /\ Forall (fun e => 0 < e) (error vs))
  /\ exists p,
       outcome (powerlaw_index (E:=E)) = inr p /\ Rabs (p - (-2)) < 0.01.
Proof.
  split; [reflexivity|]. split.
  { exists (map (midpoint_sum sin 0 PI) nvals). split; [apply integrals_outcome|].
    unfold error. rewrite map_map. apply Forall_forall. intros e He.
    apply in_map_iff in He. destruct He as [n [<- Hn]].
    apply nvals_In in Hn. apply sin_error_pos. lia. }
  set (X := fun n : Z => ln (IZR n)).
  set (Y := fun n : Z => ln (Rabs (2 - midpoint_sum sin 0 PI n))).
  exists (polyfit_slope (map X nvals) (map Y nvals)). split.
  - pose proof (integrals_outcome E) as H.
    unfold outcome, powerlaw_index, bind in *.
    destruct (integrals []) as [[e|vs] log]; cbn [fst] in H; [discriminate|].
    injection H as ->. cbn [fst ret]. unfold error. now rewrite !map_map.
  - set (c := ln (PI * PI / 12 * 0.998765) + 0.0027).
    pose proof (@slope_bound Z nvals X Y c (-2) (fun n => Y n - c + 2 * X n)
                  0 0.0027 50 ltac:(intros; lra)) as H.
    pose proof ln_nvals_spread as HD. fold X in HD.
    set (D := spread nvals X) in *.
    rewrite nvals_length in H.
    replace (INR 100) with 100 in H by (simpl; lra).
    assert (Hb := H ltac:(lra) ltac:(lra)). clear H.
    assert (He : forall n, In n nvals -> Rabs (Y n - c + 2 * X n - 0) <= 0.0027).
    { intros n Hn. apply nvals_In in Hn. apply ln_error_residual. lia. }
    specialize (Hb He).
    set (p := polyfit_slope (map X nvals) (map Y nvals)) in *.
    assert (Hp : Rabs (p - -2) * D <= 0.0081 * D).
    { eapply Rle_trans; [exact Hb|].
      replace (100 * D / (2 * 50)) with D by field. lra. }
    apply Rle_lt_trans with 0.0081; [|lra].
    apply Rmult_le_reg_r with D; [lra|exact Hp].
Qed.

(** C3, as the code has it: the function checks nothing itself.  With
    [n <= -2] NumPy refuses the negative number of samples ([ValueError]);
    with [n = -1] the grid is empty, the loop does not run and the call
    returns the integer 0; with [n = 0] the quotient [(b - a)/n] raises
    [ZeroDivisionError] when [a], [b] and [n] are Python numbers, and when
    one of them is a NumPy scalar it raises nothing, the loop does not run
    and the call returns the integer 0.  In no case is the integrand
    called.  This holds for any float arithmetic. *)
Theorem integrate_midpoint_nonpositive
    (T E : Type) (F : float_ops T) (o : operands) (f : T -> E + T)
    (a b : T) (n : Z) :
  (n <= 0)%Z ->
  outcome (integrate_midpoint_on F o f a b n)
  = (if (n <? -1)%Z then inl ValueError
     else if (n =? -1)%Z then inr (of_int F 0)
     else match o with
          | PythonNumbers => inl ZeroDivisionError
          | NumPyScalars => inr (of_int F 0)
          end)
  /\ evaluations (integrate_midpoint_on F o f a b n) = [].
Proof.
  intros Hn. unfold outcome, evaluations.
  rewrite integrate_midpoint_on_below_one by exact Hn.
  split; reflexivity.
Qed.

Lemma integrate_midpoint_nonpositive_witness :
  (0 <= 0)%Z /\
  outcome (integrate_midpoint_on binary64 NumPyScalars
             (pure (E:=Empty_set) sign_integrand) 0%float 1%float 0)
  = inr 0%float
  /\ evaluations (integrate_midpoint_on binary64 NumPyScalars
                    (pure (E:=Empty_set) sign_integrand) 0%float 1%float 0)
     = [].
Proof.
  assert (H : (0 <= 0)%Z) by lia.
  split; [exact H|].
  exact (@integrate_midpoint_nonpositive float Empty_set binary64 NumPyScalars
           (pure sign_integrand) 0%float 1%float 0 H).
Defined.

(** C3 fails as stated: on the Python numbers 0 and pi, with [n = -1] the
    call returns 0 instead of failing, and with [n = 0] it fails with
    [ZeroDivisionError], which is not the error NumPy gives for an invalid
    argument. *)
Lemma nonpositive_count_not_rejected :
  outcome (integrate_midpoint exact (pure (E:=Empty_set) sin) 0 PI (-1)) = inr 0
  /\ outcome (integrate_midpoint exact (pure (E:=Empty_set) sin) 0 PI 0)
     = inl ZeroDivisionError.
Proof. split; reflexivity. Qed.




(** C5: on [g(x) = m*x + k] the rule is exact for every [n >= 1]: the call
    returns [m*(b^2 - a^2)/2 + k*(b - a)], and [c*(b - a)] on a constant [c]. *)
Theorem integrate_midpoint_linear (E : Type) (m k a b : R) (n : Z) :
  (1 <= n)%Z ->
  outcome (integrate_midpoint exact (pure (E:=E) (fun x => m * x + k)) a b n)
  = inr (m * (b ^ 2 - a ^ 2) / 2 + k * (b - a))
  /\ outcome (integrate_midpoint exact (pure (E:=E) (fun _ => k)) a b n)
     = inr (k * (b - a)).
Proof.
  intros Hn. unfold outcome. rewrite !integrate_midpoint_pure by lia. cbn [fst].
  split; f_equal.
  - rewrite midpoint_sum_linear by lia. field.
  - rewrite <- (Rplus_0_l (k * (b - a))).
    replace 0 with (0 * (b * b - a * a) / 2) at 1 by lra.
    rewrite <- (midpoint_sum_linear 0 k a b Hn).
    rewrite !midpoint_sum_sumR. apply sumR_map_ext. intros j _. lra.
Qed.

Lemma integrate_midpoint_linear_witness :
  (1 <= 7)%Z /\
  outcome (integrate_midpoint exact (pure (E:=Empty_set) (fun x => 3 * x + 5)) 1 2 7)
  = inr (3 * (2 ^ 2 - 1 ^ 2) / 2 + 5 * (2 - 1))
  /\ outcome (integrate_midpoint exact (pure (E:=Empty_set) (fun _ => 5)) 1 2 7)
     = inr (5 * (2 - 1)).
Proof.
  split; [lia|].
  apply (integrate_midpoint_linear Empty_set 3 5 1 2 (n:=7)). lia.
Defined.






(** C8, in exact arithmetic: [integrate_midpoint(sin, 0, pi, 1000)] is
    within [1e-6] of the integral 2, and within [1e-12] of the value
    [2.0000008224672694] the notebook shows. *)
Theorem integrate_midpoint_sin_1000 (E : Type) :
  exists v,
    outcome (integrate_midpoint exact (pure (E:=E) sin) 0 PI 1000) = inr v
    /\ Rabs (v - 2) < 1 / 1000000
    /\ Rabs (v - 2.0000008224672694) < 1 / 1000000000000.
Proof.
  exists (midpoint_sum sin 0 PI 1000). split.
  { unfold outcome. now rewrite integrate_midpoint_pure by lia. }
  pose proof (@midpoint_sum_sin 1000 ltac:(lia)) as H.
  set (v := midpoint_sum sin 0 PI 1000) in *.
  pose proof PI_bounds as [Hlo Hhi].
  set (x := PI / 1000 / 2) in *.
  assert (Hx : 0.0015707963 <= x <= 0.00157079635) by (unfold x; lra).
  destruct (@sin_bounds x ltac:(lra)) as [Hsl Hsu].
  assert (H2 : v * sin x = 2 * x) by (unfold x in *; lra).
  set (s := sin x) in *.
  assert (Hq : 0.0015707963 * 0.0015707963 <= x * x
               <= 0.00157079635 * 0.00157079635) by nra.
  set (q := x * x) in *.
  assert (Hs1 : x * (1 - 0.00157079635 * 0.00157079635 / 6) <= s).
  { replace (x ^ 3) with (x * q) in Hsl by (unfold q; ring). nra. }
  assert (Hs2 : s <= x * (1 - 0.0015707963 * 0.0015707963 / 6
                          + (0.00157079635 * 0.00157079635)
                            * (0.00157079635 * 0.00157079635) / 120)).
  { replace (x ^ 3) with (x * q) in Hsu by (unfold q; ring).
    replace (x ^ 5) with (x * (q * q)) in Hsu by (unfold q; ring).
    assert (q * q <= (0.00157079635 * 0.00157079635)
                     * (0.00157079635 * 0.00157079635)) by nra.
    nra. }
  assert (Hv : 0 < v) by nra.
  assert (Hu : v * (1 - 0.00157079635 * 0.00157079635 / 6) <= 2).
  { apply Rmult_le_reg_l with x; [lra|]. nra. }
  assert (Hl : 2 <= v * (1 - 0.0015707963 * 0.0015707963 / 6
                          + (0.00157079635 * 0.00157079635)
                            * (0.00157079635 * 0.00157079635) / 120)).
  { apply Rmult_le_reg_l with x; [lra|]. nra. }
  split; apply Rabs_def1; lra.
Qed.

(** C9: whatever the arithmetic, if the integrand raises [e] at a point the
    call evaluates it at, the call ends with that very exception: it returns
    no sum.  (The point is then the last one evaluated.) *)
Theorem integrand_failure_propagates
    (T E : Type) (F : float_ops T) (f : T -> E + T) (a b : T) (n : Z)
    (x : T) (e : E) :
  In x (evaluations (integrate_midpoint F f a b n)) ->
  f x = inl e ->
  outcome (integrate_midpoint F f a b n) = inl (Raised e).
Proof.
  intros Hin Hx. unfold evaluations, outcome in *.
  pose proof (@faithful_integrate_midpoint T E F f a b n [] ltac:(intros y [])) as H.
  destruct (integrate_midpoint F f a b n []) as [[[| | |e']|v] log]; cbn in *;
    try (destruct (H x Hin) as [v' Hv]; congruence).
  destruct H as (l & x' & -> & Hl & Hx').
  apply in_app_or in Hin. destruct Hin as [Hin|[<-|[]]].
  - destruct (Hl x Hin) as [v' Hv]. congruence.
  - congruence.
Qed.

Lemma integrand_failure_propagates_witness :
  In 0.75%float (evaluations (integrate_midpoint binary64 below_half64 0%float 1%float 2))
  /\ below_half64 0.75%float = inl tt
  /\ outcome (integrate_midpoint binary64 below_half64 0%float 1%float 2)
     = inl (Raised tt).
Proof.
  assert (Hin : In 0.75%float
                  (evaluations (integrate_midpoint binary64 below_half64 0%float 1%float 2)))
    by (vm_compute; right; left; reflexivity).
  assert (Hx : below_half64 0.75%float = inl tt) by reflexivity.
  split; [exact Hin|]. split; [exact Hx|].
  exact (@integrand_failure_propagates float unit binary64 below_half64
           0%float 1%float 2 0.75%float tt Hin Hx).
Defined.

(** C10: for [n >= 1], whatever the arithmetic, the call on an integrand
    that does not raise returns a value (so no lookup of its loop has
    raised [IndexError]) after exactly [n] calls of the integrand; the grid
    has [n + 1] points and every access [x[j]], [x[j+1]] of the loop is
    inside it.  In exact arithmetic, for [a <> b], every point of
    evaluation lies strictly between [min(a, b)] and [max(a, b)]: never at
    [a], never at [b]. *)
Theorem integrate_midpoint_evaluations (n : Z) :
  (1 <= n)%Z ->
  (forall (T E : Type) (F : float_ops T) (g : T -> T) (a b : T),
     (exists v, outcome (integrate_midpoint F (pure (E:=E) g) a b n) = inr v)
     /\ length (evaluations (integrate_midpoint F (pure (E:=E) g) a b n))
        = Z.to_nat n
     /\ exists x,
          outcome (linspace (E:=E) F a b (n + 1)) = inr x
          /\ length x = Z.to_nat (n + 1)
          /\ forall j, In j (range n) ->
               (0 <= j /\ j + 1 < Z.of_nat (length x))%Z
               /\ (exists xj, outcome (getitem (E:=E) x j) = inr xj)
               /\ (exists xj1, outcome (getitem (E:=E) x (j + 1)) = inr xj1))
  /\ (forall (E : Type) (g : R -> R) (a b : R),
        a <> b ->
        Forall (fun x => Rmin a b < x < Rmax a b)
          (evaluations (integrate_midpoint exact (pure (E:=E) g) a b n))
        /\ ~ In a (evaluations (integrate_midpoint exact (pure (E:=E) g) a b n))
        /\ ~ In b (evaluations (integrate_midpoint exact (pure (E:=E) g) a b n))).
Proof.
  intros Hn. split.
  - intros T E F g a b.
    destruct (@integrate_midpoint_calls T E F g a b n Hn) as [Hret Hcalls].
    split; [exact Hret|]. split; [exact Hcalls|].
    destruct (@linspace_length T E F a b (n + 1) [] ltac:(lia)) as (x & Hx & Hlen).
    exists x. unfold outcome. rewrite Hx. split; [reflexivity|].
    split; [exact Hlen|].
    intros j Hj. apply range_In in Hj.
    split; [lia|].
    split.
    + destruct (@getitem_inside T E x j [] ltac:(lia)) as [v Hv].
      exists v. now rewrite Hv.
    + destruct (@getitem_inside T E x (j + 1) [] ltac:(lia)) as [v Hv].
      exists v. now rewrite Hv.
  - intros E g a b Hab. unfold evaluations.
    rewrite integrate_midpoint_pure by lia. cbn [snd].
    assert (Hin : Forall (fun x => Rmin a b < x < Rmax a b)
                    (map (midpoint a b n) (range n))).
    { apply Forall_forall. intros x Hx. apply in_map_iff in Hx.
      destruct Hx as [j [<- Hj]]. apply midpoint_inside; [|exact Hab].
      now apply range_In. }
    split; [exact Hin|].
    rewrite Forall_forall in Hin.
    split; intros H; apply Hin in H; unfold Rmin, Rmax in H;
      destruct (Rle_dec a b); lra.
Qed.

Lemma integrate_midpoint_evaluations_witness :
  (1 <= 4)%Z
  /\ (exists v,
        outcome (integrate_midpoint binary64 (pure (E:=Empty_set) step_integrand)
                   0%float 1%float 4) = inr v)
  /\ length (evaluations (integrate_midpoint binary64 (pure (E:=Empty_set) step_integrand)
                            0%float 1%float 4)) = Z.to_nat 4
  /\ (0 <> 1 ->
      Forall (fun x => Rmin 0 1 < x < Rmax 0 1)
        (evaluations (integrate_midpoint exact (pure (E:=Empty_set) exp) 0 1 4))).
Proof.
  assert (H : (1 <= 4)%Z) by lia.
  split; [exact H|].
  destruct (@integrate_midpoint_evaluations 4 H) as [Hany Hexact].
  split; [|split].
  - apply (Hany float Empty_set binary64 step_integrand 0%float 1%float).
  - apply (Hany float Empty_set binary64 step_integrand 0%float 1%float).
  - intros Hab. apply (Hexact Empty_set exp 0 1 Hab).
Defined.

(** C10 fails on doubles in its last part: the mean of two neighbouring grid
    points is rounded, and can round to one of them.  With one sub-interval
    of [[1, 1 + 2**-52]] the sum [1 + (1 + 2**-52)] is a tie and rounds to
    2, so the integrand is evaluated at [a = 1]; with one sub-interval of
    [[2 - 2**-52, 2]] it is evaluated at [b = 2]. *)
Lemma endpoint_evaluated_binary64 :
  PrimFloat.eqb 1%float 0x1.0000000000001p0%float = false
  /\ evaluations (integrate_midpoint binary64 (pure (E:=Empty_set) sign_integrand)
                    1%float 0x1.0000000000001p0%float 1)
     = [1%float]
  /\ PrimFloat.eqb 0x1.fffffffffffffp0%float 2%float = false
  /\ evaluations (integrate_midpoint binary64 (pure (E:=Empty_set) sign_integrand)
                    0x1.fffffffffffffp0%float 2%float 1)
     = [2%float].
Proof. vm_compute. repeat split. Qed.

(** * Further properties

    What else the function and the convergence check do, beside the
    claims: which exceptions can end a call and how often the integrand is
    called, in any arithmetic; and in exact arithmetic the algebra of the
    rule (linearity, monotonicity, change of variable, adjacent
    intervals), its error on quadratics and on twice differentiable
    integrands, and the sine over [[0, pi]] for every [n]. *)

(** ** Algebra of the midpoint sum *)

Lemma outcome_pure (E : Type) (g : R -> R) (a b : R) (n : Z) :
  (1 <= n)%Z ->
  outcome (integrate_midpoint exact (pure (E:=E) g) a b n)
  = inr (midpoint_sum g a b n).
Proof. intros Hn. unfold outcome. now rewrite integrate_midpoint_pure. Qed.

Lemma midpoint_sum_combination (g h : R -> R) (al be a b : R) (n : Z) :
  midpoint_sum (fun x => al * g x + be * h x) a b n
  = al * midpoint_sum g a b n + be * midpoint_sum h a b n.
Proof.
  rewrite !midpoint_sum_sumR.
  rewrite (sumR_map_ext _
             (fun j => al * (g (midpoint a b n j) * width a b n)
                       + be * (h (midpoint a b n j) * width a b n)))
    by (intros j _; ring).
  now rewrite sumR_map_plus, !sumR_map_scale.
Qed.

Lemma midpoint_sum_le (g h : R -> R) (a b : R) (n : Z) :
  (1 <= n)%Z -> a <= b ->
  (forall x, a < x < b -> g x <= h x) ->
  midpoint_sum g a b n <= midpoint_sum h a b n.
Proof.
  intros Hn Hab Hgh. rewrite !midpoint_sum_sumR.
  apply sumR_map_le. intros j Hj. apply range_In in Hj.
  assert (Hw : 0 <= width a b n).
  { unfold width. apply Rmult_le_pos; [lra|].
    left. apply Rinv_0_lt_compat. apply IZR_lt. lia. }
  destruct Hab as [Hlt|Heq].
  - apply Rmult_le_compat_r; [exact Hw|]. apply Hgh.
    pose proof (@midpoint_inside a b n j Hj ltac:(lra)) as H.
    rewrite Rmin_left, Rmax_right in H by lra. exact H.
  - subst b. replace (width a a n) with 0 by (unfold width; lra). lra.
Qed.

Lemma midpoint_sum_const (c a b : R) (n : Z) :
  (1 <= n)%Z -> midpoint_sum (fun _ => c) a b n = c * (b - a).
Proof.
  intros Hn.
  pose proof (@midpoint_sum_linear 0 c a b n Hn) as H.
  rewrite !midpoint_sum_sumR in *.
  rewrite (sumR_map_ext _ (fun j => (0 * midpoint a b n j + c) * width a b n))
    by (intros j _; ring).
  rewrite H. lra.
Qed.

Lemma midpoint_affine_subst (k c a b : R) (n j : Z) :
  midpoint (k * a + c) (k * b + c) n j = k * midpoint a b n j + c.
Proof. unfold midpoint, width. unfold Rdiv. ring. Qed.

Lemma width_affine_subst (k c a b : R) (n : Z) :
  width (k * a + c) (k * b + c) n = k * width a b n.
Proof. unfold width. unfold Rdiv. ring. Qed.

Lemma midpoint_sum_subst (g : R -> R) (k c a b : R) (n : Z) :
  midpoint_sum g (k * a + c) (k * b + c) n
  = k * midpoint_sum (fun x => g (k * x + c)) a b n.
Proof.
  rewrite !midpoint_sum_sumR, <- sumR_map_scale.
  apply sumR_map_ext. intros j _.
  rewrite midpoint_affine_subst, width_affine_subst. ring.
Qed.

Lemma seq_from (K M : nat) : seq K M = map (Nat.add K) (seq 0 M).
Proof.
  induction K as [|K IH].
  - cbn. now rewrite map_id.
  - rewrite <- seq_shift, IH, map_map. reflexivity.
Qed.

Lemma range_app (k m : Z) :
  (0 <= k)%Z -> (0 <= m)%Z ->
  range (k + m) = range k ++ map (fun j => k + j)%Z (range m).
Proof.
  intros Hk Hm. unfold range.
  replace (Z.to_nat (k + m)) with (Z.to_nat k + Z.to_nat m)%nat by lia.
  rewrite seq_app, map_app. f_equal. cbn [Nat.add].
  rewrite seq_from, !map_map. apply map_ext. intros i. lia.
Qed.

(** The sum over [[a, b]] splits at any grid point. *)
Lemma midpoint_sum_split (g : R -> R) (a b : R) (k m : Z) :
  (1 <= k)%Z -> (1 <= m)%Z ->
  midpoint_sum g a b (k + m)
  = midpoint_sum g a (node a b (k + m) k) k
    + midpoint_sum g (node a b (k + m) k) b m.
Proof.
  intros Hk Hm.
  assert (Hzk : IZR k <> 0) by (apply not_0_IZR; lia).
  assert (Hzm : IZR m <> 0) by (apply not_0_IZR; lia).
  assert (Hz : IZR k + IZR m <> 0).
  { rewrite <- plus_IZR. apply not_0_IZR. lia. }
  rewrite !midpoint_sum_sumR.
  rewrite range_app by lia. rewrite map_app, sumR_app. f_equal.
  - apply sumR_map_ext. intros j _.
    unfold midpoint, node, width. rewrite plus_IZR.
    replace ((a + IZR k * ((b - a) / (IZR k + IZR m)) - a) / IZR k)
      with ((b - a) / (IZR k + IZR m)) by (field; split; assumption).
    reflexivity.
  - rewrite map_map. apply sumR_map_ext. intros j _.
    unfold midpoint, node, width. rewrite !plus_IZR.
    replace ((b - (a + IZR k * ((b - a) / (IZR k + IZR m)))) / IZR m)
      with ((b - a) / (IZR k + IZR m)) by (field; split; assumption).
    f_equal. f_equal. field. exact Hz.
Qed.

(** Partial sums of the rule on [x^2]. *)
Lemma square_partial_sum (a w : R) (N : nat) :
  fold_left (fun acc j => acc + (a + IZR j * w + w / 2) * (a + IZR j * w + w / 2) * w)
    (range (Z.of_nat N)) 0
  = w * (IZR (Z.of_nat N) * a * a
         + a * w * IZR (Z.of_nat N) * IZR (Z.of_nat N)
         + w * w * (IZR (Z.of_nat N) * IZR (Z.of_nat N) * IZR (Z.of_nat N) / 3
                    - IZR (Z.of_nat N) / 12)).
Proof.
  induction N as [|N IH].
  - cbn. lra.
  - replace (Z.of_nat (S N)) with (Z.of_nat N + 1)%Z by lia.
    rewrite range_succ by lia. rewrite fold_left_app, IH. cbn [fold_left].
    rewrite plus_IZR. field.
Qed.

Lemma midpoint_sum_square (a b : R) (n : Z) :
  (1 <= n)%Z ->
  midpoint_sum (fun x => x * x) a b n
  = (b ^ 3 - a ^ 3) / 3 - (b - a) ^ 3 / (12 * (IZR n * IZR n)).
Proof.
  intros Hn. destruct (Z_of_nat_complete n) as [N ->]; [lia|].
  unfold midpoint_sum, midpoint. rewrite square_partial_sum.
  unfold width. field. apply not_0_IZR. lia.
Qed.

(** ** Any integrand, in any arithmetic *)

Section AnyIntegrand.

Variables T E : Type.
Variable F : float_ops T.
Variable f : T -> E + T.

(** The loop over a grid that holds every index it uses: it ends with a
    value after one call per pass, or with an exception of [f] after at
    most as many calls. *)
Lemma loop_any (x : list T) (dx : T) (js : list Z) :
  (forall j, In j js -> (0 <= j /\ j + 1 < Z.of_nat (length x))%Z) ->
  forall integral log,
  exists r log',
    for_ js (fun j integral =>
      bind (getitem x j) (fun xj =>
      bind (getitem x (j + 1)) (fun xj1 =>
      bind (truediv F (add F xj xj1) 2) (fun xmid =>
      bind (call f xmid) (fun fx =>
      ret (add F integral (mul F fx dx))))))) integral log
    = (r, log ++ log')
    /\ ((exists v, r = inr v /\ length log' = length js)
        \/ (exists e, r = inl (Raised e)
                      /\ (1 <= length log' <= length js)%nat)).
Proof.
  induction js as [|j js IH]; intros Hjs integral log.
  - exists (inr integral), []. cbn. rewrite app_nil_r. split; [reflexivity|].
    left. now exists integral.
  - destruct (Hjs j (or_introl eq_refl)) as [Hj0 Hj1].
    destruct (@getitem_inside T E x j log ltac:(lia)) as [xj Hxj].
    destruct (@getitem_inside T E x (j + 1) log ltac:(lia)) as [xj1 Hxj1].
    set (xmid := div F (add F xj xj1) (of_int F 2)).
    cbn [for_].
    destruct (f xmid) as [e|fx] eqn:Hf.
    + exists (inl (Raised e)), [xmid]. split.
      * erewrite bind_inl; [reflexivity|].
        erewrite bind_inr by exact Hxj.
        erewrite bind_inr by exact Hxj1.
        erewrite bind_inr by reflexivity.
        erewrite bind_inl; [reflexivity|].
        unfold call. fold xmid. now rewrite Hf.
      * right. exists e. split; [reflexivity|]. cbn. lia.
    + destruct (IH (fun k Hk => Hjs k (or_intror Hk))
                  (add F integral (mul F fx dx)) (log ++ [xmid]))
        as (r & log' & Hr & Hcase).
      exists r, (xmid :: log'). split.
      * erewrite bind_inr; [rewrite Hr; now rewrite <- app_assoc|].
        erewrite bind_inr by exact Hxj.
        erewrite bind_inr by exact Hxj1.
        erewrite bind_inr by reflexivity.
        erewrite bind_inr; [reflexivity|].
        unfold call. fold xmid. now rewrite Hf.
      * destruct Hcase as [(v & -> & Hl)|(e & -> & Hl)].
        -- left. exists v. split; [reflexivity|]. cbn. now rewrite Hl.
        -- right. exists e. split; [reflexivity|]. cbn. lia.
Qed.

(** With [n >= 1] the call ends with a value after [n] calls of [f], or
    with an exception of [f] after at most [n]. *)
Lemma integrate_midpoint_any (a b : T) (n : Z) :
  (1 <= n)%Z ->
  (exists v, outcome (integrate_midpoint F f a b n) = inr v
             /\ length (evaluations (integrate_midpoint F f a b n)) = Z.to_nat n)
  \/ (exists e, outcome (integrate_midpoint F f a b n) = inl (Raised e)
                /\ (1 <= length (evaluations (integrate_midpoint F f a b n))
                    <= Z.to_nat n)%nat).
Proof.
  intros Hn. unfold outcome, evaluations, integrate_midpoint.
  destruct (@linspace_length T E F a b (n + 1) [] ltac:(lia)) as (x & Hx & Hlen).
  erewrite bind_inr by exact Hx.
  erewrite bind_inr
    by (unfold truediv; destruct (Z.eqb_spec n 0); [lia|reflexivity]).
  destruct (@loop_any x (div F (sub F b a) (of_int F n)) (range n)) with
    (integral := of_int F 0) (log := @nil T) as (r & log' & Hr & Hcase).
  - intros j Hj. apply range_In in Hj. lia.
  - rewrite Hr. cbn [fst snd app]. rewrite range_length in Hcase.
    destruct Hcase as [(v & -> & Hl)|(e & -> & Hl)]; [left|right]; eauto.
Qed.

Lemma integrate_midpoint_below_one (a b : T) (n : Z) :
  (n <= 0)%Z ->
  integrate_midpoint F f a b n []
  = (if (n <? -1)%Z then inl ValueError
     else if (n =? -1)%Z then inr (of_int F 0)
     else inl ZeroDivisionError, []).
Proof.
  intros Hn. unfold integrate_midpoint.
  destruct (Z.ltb_spec n (-1)) as [H1|H1].
  - unfold bind at 1, linspace.
    now destruct (Z.ltb_spec (n + 1) 0); [|lia].
  - destruct (Z.eqb_spec n (-1)) as [->|H2]; [reflexivity|].
    assert (n = 0%Z) as -> by lia. reflexivity.
Qed.

End AnyIntegrand.

Section Agreement.

Variables T E : Type.
Variable F : float_ops T.
Variables f g : T -> E + T.

(** One pass of the loop, the two lookups being in range: one call of the
    integrand, at a point that depends on the grid and the index only. *)
Lemma pass_inside (x : list T) (dx : T) (j : Z) :
  (0 <= j /\ j + 1 < Z.of_nat (length x))%Z ->
  exists xmid,
    forall (h : T -> E + T) integral log,
      bind (getitem x j) (fun xj =>
      bind (getitem x (j + 1)) (fun xj1 =>
      bind (truediv F (add F xj xj1) 2) (fun xmid =>
      bind (call h xmid) (fun fx =>
      ret (add F integral (mul F fx dx)))))) log
      = (match h xmid with
         | inl e => inl (Raised e)
         | inr fx => inr (add F integral (mul F fx dx))
         end, log ++ [xmid]).
Proof.
  intros [Hj0 Hj1].
  destruct (nth_error x (Z.to_nat j)) as [xj|] eqn:Hxj;
    [|apply nth_error_None in Hxj; lia].
  destruct (nth_error x (Z.to_nat (j + 1))) as [xj1|] eqn:Hxj1;
    [|apply nth_error_None in Hxj1; lia].
  exists (div F (add F xj xj1) (of_int F 2)). intros h integral log.
  assert (Hget : getitem (E:=E) x j log = (inr xj, log)).
  { unfold getitem. destruct (Z.ltb_spec j 0); [lia|].
    destruct (Z.ltb_spec j 0); [lia|].
    destruct (Z.leb_spec (Z.of_nat (length x)) j); [lia|].
    cbn [orb]. now rewrite Hxj. }
  assert (Hget1 : getitem (E:=E) x (j + 1) log = (inr xj1, log)).
  { unfold getitem. destruct (Z.ltb_spec (j + 1) 0); [lia|].
    destruct (Z.ltb_spec (j + 1) 0); [lia|].
    destruct (Z.leb_spec (Z.of_nat (length x)) (j + 1)); [lia|].
    cbn [orb]. now rewrite Hxj1. }
  erewrite bind_inr by exact Hget.
  erewrite bind_inr by exact Hget1.
  erewrite bind_inr by reflexivity.
  unfold bind, call, ret.
  now destruct (h (div F (add F xj xj1) (of_int F 2))).
Qed.

Lemma loop_agree (x : list T) (dx : T) (js : list Z) :
  (forall j, In j js -> (0 <= j /\ j + 1 < Z.of_nat (length x))%Z) ->
  forall integral log,
  (forall y,
     In y (snd (for_ js (fun j integral =>
                  bind (getitem x j) (fun xj =>
                  bind (getitem x (j + 1)) (fun xj1 =>
                  bind (truediv F (add F xj xj1) 2) (fun xmid =>
                  bind (call f xmid) (fun fx =>
                  ret (add F integral (mul F fx dx))))))) integral log)) ->
     g y = f y) ->
  for_ js (fun j integral =>
    bind (getitem x j) (fun xj =>
    bind (getitem x (j + 1)) (fun xj1 =>
    bind (truediv F (add F xj xj1) 2) (fun xmid =>
    bind (call g xmid) (fun fx =>
    ret (add F integral (mul F fx dx))))))) integral log
  = for_ js (fun j integral =>
      bind (getitem x j) (fun xj =>
      bind (getitem x (j + 1)) (fun xj1 =>
      bind (truediv F (add F xj xj1) 2) (fun xmid =>
      bind (call f xmid) (fun fx =>
      ret (add F integral (mul F fx dx))))))) integral log.
Proof.
  set (bf := fun (j : Z) (integral : T) =>
    bind (getitem x j) (fun xj =>
    bind (getitem x (j + 1)) (fun xj1 =>
    bind (truediv F (add F xj xj1) 2) (fun xmid =>
    bind (call f xmid) (fun fx =>
    ret (E:=E) (add F integral (mul F fx dx))))))).
  set (bg := fun (j : Z) (integral : T) =>
    bind (getitem x j) (fun xj =>
    bind (getitem x (j + 1)) (fun xj1 =>
    bind (truediv F (add F xj xj1) 2) (fun xmid =>
    bind (call g xmid) (fun fx =>
    ret (E:=E) (add F integral (mul F fx dx))))))).
  induction js as [|j js IH]; intros Hjs integral log Hagree; [reflexivity|].
  destruct (@pass_inside x dx j (Hjs j (or_introl eq_refl))) as (xmid & Hpass).
  pose proof (Hpass f integral log) as Hf. fold (bf j integral) in Hf.
  pose proof (Hpass g integral log) as Hg. fold (bg j integral) in Hg.
  cbn [for_] in *.
  destruct (f xmid) as [e|fx] eqn:Hfx.
  - rewrite (bind_inl _ (for_ js bf) _ Hf) in *. cbn [snd] in Hagree.
    rewrite (Hagree xmid), Hfx in Hg by (apply in_or_app; right; now left).
    now rewrite (bind_inl _ (for_ js bg) _ Hg).
  - rewrite (bind_inr _ (for_ js bf) _ Hf) in *.
    destruct (@loop_any T E F f x dx js (fun k Hk => Hjs k (or_intror Hk))
                (add F integral (mul F fx dx)) (log ++ [xmid]))
      as (r & log' & Hr & _).
    fold bf in Hr.
    assert (Hx : g xmid = f xmid).
    { apply Hagree. rewrite Hr. cbn [snd].
      apply in_or_app; left. apply in_or_app; right. now left. }
    rewrite Hx, Hfx in Hg. rewrite (bind_inr _ (for_ js bg) _ Hg).
    apply IH; [intros k Hk; apply Hjs; now right|exact Hagree].
Qed.

Lemma integrate_midpoint_agree_run (a b : T) (n : Z) :
  (forall y, In y (evaluations (integrate_midpoint F f a b n)) -> g y = f y) ->
  integrate_midpoint F g a b n [] = integrate_midpoint F f a b n [].
Proof.
  intros Hagree.
  destruct (Z_le_gt_dec n 0) as [Hn|Hn].
  - now rewrite !integrate_midpoint_below_one by exact Hn.
  - unfold evaluations, integrate_midpoint in *.
    destruct (@linspace_length T E F a b (n + 1) [] ltac:(lia)) as (x & Hx & Hlen).
    erewrite bind_inr in Hagree by exact Hx.
    assert (Hdx : truediv (E:=E) F (sub F b a) n []
                  = (inr (div F (sub F b a) (of_int F n)), []))
      by (unfold truediv; destruct (Z.eqb_spec n 0); [lia|reflexivity]).
    erewrite bind_inr in Hagree by exact Hdx.
    erewrite bind_inr by exact Hx. erewrite bind_inr by exact Hdx.
    symmetry.
    erewrite bind_inr by exact Hx. erewrite bind_inr by exact Hdx.
    symmetry.
    apply loop_agree; [|exact Hagree].
    intros j Hj. apply range_In in Hj. lia.
Qed.

End Agreement.

(** ** The error of the rule on one sub-interval *)

Lemma Rabs_le_both (x d : R) : Rabs x <= d -> - d <= x <= d.
Proof. unfold Rabs. destruct (Rcase_abs x); lra. Qed.

Lemma derivable_pt_lim_eq (g h : R -> R) (x l l' : R) :
  (forall z, g z = h z) -> l = l' ->
  derivable_pt_lim g x l -> derivable_pt_lim h x l'.
Proof. intros Hgh <- H. exact (derivable_pt_lim_ext g h x l Hgh H). Qed.

Lemma derivable_pt_lim_shift (G g : R -> R) (c k s : R) :
  derivable_pt_lim G (c + k * s) (g (c + k * s)) ->
  derivable_pt_lim (fun u => G (c + k * u)) s (k * g (c + k * s)).
Proof.
  intros H.
  apply (@derivable_pt_lim_eq (comp G (fct_cte c + mult_real_fct k id)%F)
           (fun u => G (c + k * u)) s (g (c + k * s) * (0 + k * 1))).
  - intros z. reflexivity.
  - ring.
  - apply derivable_pt_lim_comp.
    + apply derivable_pt_lim_plus;
        [apply derivable_pt_lim_const
        |apply derivable_pt_lim_scal, derivable_pt_lim_id].
    + exact H.
Qed.

(** A function with a non-negative derivative on [[0, r]] does not go
    below its value at 0. *)
Lemma nonneg_derivative_from_zero (g g' : R -> R) (r : R) :
  (forall s, 0 <= s <= r -> derivable_pt_lim g s (g' s)) ->
  (forall s, 0 <= s <= r -> 0 <= g' s) ->
  forall s, 0 <= s <= r -> g 0 <= g s.
Proof.
  intros Hd Hpos s [[Hs|<-] Hsr]; [|lra].
  destruct (MVT_cor2 g g' 0 s Hs) as (c & Hc & Hc0).
  - intros u Hu. apply Hd. lra.
  - assert (0 <= g' c) by (apply Hpos; lra). nra.
Qed.

Section OneInterval.

Variables P f f1 f2 : R -> R.
Variables c r K : R.
Hypothesis Hr : 0 <= r.
Hypothesis HP : forall x, c - r <= x <= c + r -> derivable_pt_lim P x (f x).
Hypothesis Hf : forall x, c - r <= x <= c + r -> derivable_pt_lim f x (f1 x).
Hypothesis Hf1 : forall x, c - r <= x <= c + r -> derivable_pt_lim f1 x (f2 x).
Hypothesis HK : forall x, c - r <= x <= c + r -> Rabs (f2 x) <= K.

(** [f'] spreads by at most [2 s K] around the centre. *)
Lemma slope_spread (s : R) :
  0 <= s <= r -> Rabs (f1 (c + s) - f1 (c - s)) <= 2 * s * K.
Proof.
  intros [[Hs|<-] Hsr].
  - destruct (MVT_cor2 f1 f2 (c - s) (c + s) ltac:(lra)) as (d & Hd & Hd0).
    + intros u Hu. apply Hf1. lra.
    + rewrite Hd, Rabs_mult, (Rabs_pos_eq (c + s - (c - s))) by lra.
      assert (Rabs (f2 d) <= K) by (apply HK; lra).
      pose proof (Rabs_pos (f2 d)). nra.
  - replace (c + 0) with c by ring. replace (c - 0) with c by ring.
    rewrite Rminus_diag, Rabs_R0. lra.
Qed.

Lemma value_spread (s : R) :
  0 <= s <= r -> Rabs (f (c + s) + f (c - s) - 2 * f c) <= K * (s * s).
Proof.
  intros Hs.
  assert (Hd : forall u, 0 <= u <= r ->
             derivable_pt_lim (fun u => f (c + u) + f (c - u) - 2 * f c) u
               (f1 (c + u) - f1 (c - u))).
  { intros u Hu.
    apply (@derivable_pt_lim_eq
             ((fun u => f (c + 1 * u)%R) + (fun u => f (c + -1 * u)%R) - fct_cte (2 * f c)%R)%F
             _ u (1 * f1 (c + 1 * u) + -1 * f1 (c + -1 * u) - 0)).
    - intros z. unfold plus_fct, minus_fct, fct_cte.
      replace (c + 1 * z) with (c + z) by ring.
      replace (c + -1 * z) with (c - z) by ring. reflexivity.
    - replace (c + 1 * u) with (c + u) by ring.
      replace (c + -1 * u) with (c - u) by ring. ring.
    - apply derivable_pt_lim_minus; [apply derivable_pt_lim_plus|
                                     apply derivable_pt_lim_const];
        apply derivable_pt_lim_shift; apply Hf; lra. }
  assert (Hup : forall u, 0 <= u <= r ->
             derivable_pt_lim
               (fun u => K * (u * u) - (f (c + u) + f (c - u) - 2 * f c)) u
               (2 * K * u - (f1 (c + u) - f1 (c - u)))).
  { intros u Hu.
    apply (@derivable_pt_lim_eq
             (mult_real_fct K (id * id) - (fun u => (f (c + u) + f (c - u) - 2 * f c)%R))%F
             _ u (K * (1 * id u + id u * 1) - (f1 (c + u) - f1 (c - u)))).
    - intros z. reflexivity.
    - unfold id. ring.
    - apply derivable_pt_lim_minus; [|now apply Hd].
      apply derivable_pt_lim_scal, derivable_pt_lim_mult; apply derivable_pt_lim_id. }
  assert (Hlo : forall u, 0 <= u <= r ->
             derivable_pt_lim
               (fun u => K * (u * u) + (f (c + u) + f (c - u) - 2 * f c)) u
               (2 * K * u + (f1 (c + u) - f1 (c - u)))).
  { intros u Hu.
    apply (@derivable_pt_lim_eq
             (mult_real_fct K (id * id) + (fun u => (f (c + u) + f (c - u) - 2 * f c)%R))%F
             _ u (K * (1 * id u + id u * 1) + (f1 (c + u) - f1 (c - u)))).
    - intros z. reflexivity.
    - unfold id. ring.
    - apply derivable_pt_lim_plus; [|now apply Hd].
      apply derivable_pt_lim_scal, derivable_pt_lim_mult; apply derivable_pt_lim_id. }
  pose proof (@nonneg_derivative_from_zero _
                (fun u => 2 * K * u - (f1 (c + u) - f1 (c - u))) r Hup) as H1.
  pose proof (@nonneg_derivative_from_zero _
                (fun u => 2 * K * u + (f1 (c + u) - f1 (c - u))) r Hlo) as H2.
  assert (Hsp : forall u, 0 <= u <= r -> Rabs (f1 (c + u) - f1 (c - u)) <= 2 * u * K)
    by exact slope_spread.
  specialize (H1 ltac:(intros u Hu; specialize (Hsp u Hu);
                        apply Rabs_le_both in Hsp; lra) s Hs).
  specialize (H2 ltac:(intros u Hu; specialize (Hsp u Hu);
                        apply Rabs_le_both in Hsp; lra) s Hs).
  cbn beta in H1, H2.
  replace (c + 0) with c in * by ring. replace (c - 0) with c in * by ring.
  apply Rabs_le. lra.
Qed.

(** The area under [f] over [[c - r, c + r]] differs from the rectangle at
    the centre by at most [K r^3 / 3]. *)
Lemma one_interval_error :
  Rabs (P (c + r) - P (c - r) - 2 * r * f c) <= K * (r * r * r) / 3.
Proof.
  assert (Hd : forall u, 0 <= u <= r ->
             derivable_pt_lim (fun u => P (c + u) - P (c - u) - 2 * u * f c) u
               (f (c + u) + f (c - u) - 2 * f c)).
  { intros u Hu.
    apply (@derivable_pt_lim_eq
             ((fun u => P (c + 1 * u)%R) - (fun u => P (c + -1 * u)%R)
              - mult_real_fct (2 * f c)%R id)%F
             _ u (1 * f (c + 1 * u) - -1 * f (c + -1 * u) - 2 * f c * 1)).
    - intros z. unfold minus_fct, mult_real_fct, id.
      replace (c + 1 * z) with (c + z) by ring.
      replace (c + -1 * z) with (c - z) by ring. ring.
    - replace (c + 1 * u) with (c + u) by ring.
      replace (c + -1 * u) with (c - u) by ring. ring.
    - apply derivable_pt_lim_minus; [apply derivable_pt_lim_minus|
                                     apply derivable_pt_lim_scal, derivable_pt_lim_id];
        apply derivable_pt_lim_shift; apply HP; lra. }
  assert (Hcube : forall u, derivable_pt_lim (fun u => K * (u * u * u) / 3) u (K * (u * u))).
  { intros u.
    apply (@derivable_pt_lim_eq (mult_real_fct (K / 3)%R (id * id * id))%F
             _ u (K / 3 * ((1 * id u + id u * 1) * id u + (id u * id u) * 1))).
    - intros z. unfold mult_real_fct, mult_fct, id. field.
    - unfold id. field.
    - exact (derivable_pt_lim_scal _ (K / 3) u _
               (derivable_pt_lim_mult _ _ u _ _
                  (derivable_pt_lim_mult _ _ u _ _
                     (derivable_pt_lim_id u) (derivable_pt_lim_id u))
                  (derivable_pt_lim_id u))). }
  assert (Hup : forall u, 0 <= u <= r ->
             derivable_pt_lim
               (fun u => K * (u * u * u) / 3 - (P (c + u) - P (c - u) - 2 * u * f c)) u
               (K * (u * u) - (f (c + u) + f (c - u) - 2 * f c))).
  { intros u Hu.
    exact (derivable_pt_lim_minus _ _ u _ _ (Hcube u) (Hd u Hu)). }
  assert (Hlo : forall u, 0 <= u <= r ->
             derivable_pt_lim
               (fun u => K * (u * u * u) / 3 + (P (c + u) - P (c - u) - 2 * u * f c)) u
               (K * (u * u) + (f (c + u) + f (c - u) - 2 * f c))).
  { intros u Hu.
    exact (derivable_pt_lim_plus _ _ u _ _ (Hcube u) (Hd u Hu)). }
  pose proof (@nonneg_derivative_from_zero _
                (fun u => K * (u * u) - (f (c + u) + f (c - u) - 2 * f c)) r Hup) as H1.
  pose proof (@nonneg_derivative_from_zero _
                (fun u => K * (u * u) + (f (c + u) + f (c - u) - 2 * f c)) r Hlo) as H2.
  specialize (H1 ltac:(intros u Hu; pose proof (value_spread Hu) as Hv;
                        apply Rabs_le_both in Hv; lra) r ltac:(lra)).
  specialize (H2 ltac:(intros u Hu; pose proof (value_spread Hu) as Hv;
                        apply Rabs_le_both in Hv; lra) r ltac:(lra)).
  cbn beta in H1, H2.
  replace (c + 0) with c in * by ring. replace (c - 0) with c in * by ring.
  apply Rabs_le. lra.
Qed.

End OneInterval.

(** ** The error of the rule on the whole interval *)

Lemma sumR_telescope (u : Z -> R) (N : nat) :
  sumR (map (fun j => u (j + 1)%Z - u j) (range (Z.of_nat N)))
  = u (Z.of_nat N) - u 0%Z.
Proof.
  induction N as [|N IH].
  - cbn. lra.
  - replace (Z.of_nat (S N)) with (Z.of_nat N + 1)%Z by lia.
    rewrite range_succ by lia. rewrite map_app, sumR_app, IH.
    cbn [map sumR]. lra.
Qed.

Lemma sumR_map_abs_le {A} (h : A -> R) (d : R) (js : list A) :
  (forall j, In j js -> Rabs (h j) <= d) ->
  Rabs (sumR (map h js)) <= INR (length js) * d.
Proof.
  induction js as [|j js IH]; intros H.
  - cbn. rewrite Rabs_R0. lra.
  - cbn [map sumR length]. rewrite S_INR.
    pose proof (Rabs_triang (h j) (sumR (map h js))).
    pose proof (H j (or_introl eq_refl)).
    pose proof (IH (fun k Hk => H k (or_intror Hk))). lra.
Qed.

Lemma node_bounds (a b : R) (n j : Z) :
  (1 <= n)%Z -> a <= b -> (0 <= j <= n)%Z -> a <= node a b n j <= b.
Proof.
  intros Hn Hab Hj. unfold node, width.
  assert (Hz : 0 < IZR n) by (apply IZR_lt; lia).
  assert (H0 : 0 <= IZR j) by (apply IZR_le; lia).
  assert (H1 : IZR j <= IZR n) by (apply IZR_le; lia).
  replace (a + IZR j * ((b - a) / IZR n)) with (a + IZR j / IZR n * (b - a))
    by (field; lra).
  assert (0 <= IZR j / IZR n <= 1).
  { split.
    - apply Rmult_le_pos; [lra|]. left. now apply Rinv_0_lt_compat.
    - apply (Rmult_le_reg_r (IZR n)); [lra|].
      replace (IZR j / IZR n * IZR n) with (IZR j) by (field; lra). lra. }
  nra.
Qed.

Lemma midpoint_sum_error (P f f1 f2 : R -> R) (a b K : R) (n : Z) :
  (1 <= n)%Z -> a <= b ->
  (forall x, a <= x <= b -> derivable_pt_lim P x (f x)) ->
  (forall x, a <= x <= b -> derivable_pt_lim f x (f1 x)) ->
  (forall x, a <= x <= b -> derivable_pt_lim f1 x (f2 x)) ->
  (forall x, a <= x <= b -> Rabs (f2 x) <= K) ->
  Rabs (P b - P a - midpoint_sum f a b n)
  <= K * (b - a) ^ 3 / (24 * (IZR n * IZR n)).
Proof.
  intros Hn Hab HP Hf Hf1 HK.
  assert (Hz : 0 < IZR n) by (apply IZR_lt; lia).
  destruct (Z_of_nat_complete n) as [N HN]; [lia|].
  pose proof (sumR_telescope (fun j => P (node a b n j)) N) as Ht.
  rewrite <- HN in Ht. rewrite node_last in Ht by exact Hn.
  replace (node a b n 0) with a in Ht by (unfold node; lra).
  assert (Hsum : P b - P a - midpoint_sum f a b n
                 = sumR (map (fun j => P (node a b n (j + 1)) - P (node a b n j)
                                       - 2 * (width a b n / 2)
                                         * f (midpoint a b n j)) (range n))).
  { rewrite <- Ht, midpoint_sum_sumR.
    rewrite (sumR_map_ext
               (fun j => P (node a b n (j + 1)) - P (node a b n j)
                         - 2 * (width a b n / 2) * f (midpoint a b n j))
               (fun j => (P (node a b n (j + 1)) - P (node a b n j))
                         + - (f (midpoint a b n j) * width a b n)))
      by (intros j _; lra).
    rewrite sumR_map_plus, sumR_map_opp. lra. }
  rewrite Hsum. clear Hsum Ht.
  set (w := width a b n).
  assert (Hw : 0 <= w).
  { unfold w, width. apply Rmult_le_pos; [lra|].
    left. now apply Rinv_0_lt_compat. }
  replace (K * (b - a) ^ 3 / (24 * (IZR n * IZR n)))
    with (INR (length (range n)) * (K * (w / 2 * (w / 2) * (w / 2)) / 3)).
  2:{ rewrite range_length, INR_IZR_INZ, Z2Nat.id by lia.
      unfold w, width. field. lra. }
  apply sumR_map_abs_le. intros j Hj. apply range_In in Hj.
  pose proof (@node_bounds a b n j Hn Hab ltac:(lia)) as Hlo.
  pose proof (@node_bounds a b n (j + 1) Hn Hab ltac:(lia)) as Hhi.
  assert (Hl : midpoint a b n j - w / 2 = node a b n j)
    by (unfold midpoint, node, w; lra).
  assert (Hh : midpoint a b n j + w / 2 = node a b n (j + 1))
    by (unfold midpoint, node, w; rewrite plus_IZR; lra).
  pose proof (@one_interval_error P f f1 f2 (midpoint a b n j) (w / 2) K
                ltac:(lra)) as H.
  rewrite Hl, Hh in H.
  apply H; intros x Hx; [apply HP|apply Hf|apply Hf1|apply HK]; lra.
Qed.

(** ** The sine over [[0, pi]], any number of sub-intervals *)

(** [sin x / x] decreases on [(0, pi]]. *)
Lemma sin_chord (y x : R) :
  0 < y -> y < x -> x <= PI -> y * sin x < x * sin y.
Proof.
  intros Hy Hyx Hx.
  destruct (MVT_cor2 sin cos 0 y Hy) as (c1 & H1 & Hc1).
  { intros c _. apply derivable_pt_lim_sin. }
  destruct (MVT_cor2 sin cos y x Hyx) as (c2 & H2 & Hc2).
  { intros c _. apply derivable_pt_lim_sin. }
  rewrite sin_0 in H1.
  assert (Hcos : cos c2 < cos c1) by (apply cos_decreasing_1; lra).
  assert (Hx' : sin x = sin y + cos c2 * (x - y)) by lra.
  assert (Hy' : sin y = cos c1 * y) by lra.
  assert (Hp : 0 < y * (x - y) * (cos c1 - cos c2))
    by (repeat apply Rmult_lt_0_compat; lra).
  rewrite Hx', Hy'. lra.
Qed.

Lemma half_step_range (n : Z) :
  (1 <= n)%Z -> 0 < PI / IZR n / 2 <= PI / 2.
Proof.
  intros Hn. pose proof PI_RGT_0 as Hpi.
  assert (Hz : 1 <= IZR n) by (apply IZR_le; exact Hn).
  assert (Hi : 0 < / IZR n <= 1).
  { split; [apply Rinv_0_lt_compat; lra|].
    rewrite <- Rinv_1. apply Rinv_le_contravar; lra. }
  unfold Rdiv. nra.
Qed.

Lemma half_step_decreasing (n m : Z) :
  (1 <= n < m)%Z -> PI / IZR m / 2 < PI / IZR n / 2.
Proof.
  intros H. pose proof PI_RGT_0 as Hpi.
  assert (Hn : 1 <= IZR n) by (apply IZR_le; lia).
  assert (Hm : IZR n < IZR m) by (apply IZR_lt; lia).
  assert (/ IZR m < / IZR n) by (apply Rinv_lt_contravar; nra).
  unfold Rdiv. nra.
Qed.

Lemma midpoint_sum_sin_above (n : Z) :
  (1 <= n)%Z -> 2 < midpoint_sum sin 0 PI n.
Proof.
  intros Hn. pose proof (midpoint_sum_sin Hn) as H.
  destruct (half_step_range Hn) as [H0 H1].
  set (x := PI / IZR n / 2) in *. set (v := midpoint_sum sin 0 PI n) in *.
  replace (PI / IZR n) with (2 * x) in H by (unfold x; lra).
  pose proof (sin_lt_x x H0) as Hs.
  pose proof PI_RGT_0.
  assert (0 < sin x) by (apply sin_gt_0; lra).
  nra.
Qed.

Lemma midpoint_sum_sin_decreasing (n m : Z) :
  (1 <= n < m)%Z -> midpoint_sum sin 0 PI m < midpoint_sum sin 0 PI n.
Proof.
  intros H.
  pose proof (@midpoint_sum_sin n ltac:(lia)) as Hn.
  pose proof (@midpoint_sum_sin m ltac:(lia)) as Hm.
  destruct (@half_step_range n ltac:(lia)) as [Hn0 Hn1].
  destruct (@half_step_range m ltac:(lia)) as [Hm0 Hm1].
  pose proof (half_step_decreasing H) as Hlt.
  set (x := PI / IZR n / 2) in *. set (y := PI / IZR m / 2) in *.
  set (vn := midpoint_sum sin 0 PI n) in *.
  set (vm := midpoint_sum sin 0 PI m) in *.
  replace (PI / IZR n) with (2 * x) in Hn by (unfold x; lra).
  replace (PI / IZR m) with (2 * y) in Hm by (unfold y; lra).
  pose proof PI_RGT_0.
  pose proof (@sin_chord y x Hm0 Hlt ltac:(lra)) as Hc.
  assert (Hsx : 0 < sin x) by (apply sin_gt_0; lra).
  assert (Hsy : 0 < sin y) by (apply sin_gt_0; lra).
  (* vm * sy = 2y, vn * sx = 2x, y sx < x sy  ==> vm < vn *)
  apply (Rmult_lt_reg_r (sin x * sin y)); [nra|].
  replace (vm * (sin x * sin y)) with (vm * sin y * sin x) by ring.
  replace (vn * (sin x * sin y)) with (vn * sin x * sin y) by ring.
  rewrite Hn, Hm. lra.
Qed.

(** The error times [n^2] is within [pi^2/12 (1 - pi^2/(80 n^2))] and
    [pi^2/12 / (1 - pi^2/(24 n^2))]. *)
Lemma midpoint_sum_sin_envelope (n : Z) :
  (2 <= n)%Z ->
  PI * PI / 12 * (1 - PI * PI / (80 * (IZR n * IZR n)))
  <= (midpoint_sum sin 0 PI n - 2) * (IZR n * IZR n)
  /\ (midpoint_sum sin 0 PI n - 2) * (IZR n * IZR n)
       * (1 - PI * PI / (24 * (IZR n * IZR n)))
     <= PI * PI / 12.
Proof.
  intros Hn.
  pose proof (@midpoint_sum_sin n ltac:(lia)) as H.
  pose proof (@midpoint_sum_sin_above n ltac:(lia)) as Hv.
  destruct (@half_step_range n ltac:(lia)) as [H0 _].
  assert (Hz : 2 <= IZR n) by (apply IZR_le; exact Hn).
  pose proof PI_bounds as [Hpl Hph].
  set (x := PI / IZR n / 2) in *. set (v := midpoint_sum sin 0 PI n) in *.
  replace (PI / IZR n) with (2 * x) in H by (unfold x; lra).
  assert (Hx1 : x <= 1).
  { unfold x. apply (Rmult_le_reg_r (IZR n * 2)); [lra|].
    replace (PI / IZR n / 2 * (IZR n * 2)) with PI by (field; lra). lra. }
  destruct (@sin_bounds x ltac:(lra)) as [Hsl Hsh].
  pose proof (sin_lt_x x H0) as Hs.
  set (s := sin x) in *. set (e := v - 2) in *.
  assert (He : 0 < e) by (unfold e; lra).
  assert (Hes : e * s = 2 * (x - s)) by (unfold e; lra).
  assert (Hxx : x * x * (4 * (IZR n * IZR n)) = PI * PI).
  { unfold x. field. lra. }
  assert (Hlo : x * x / 3 * (1 - x * x / 20) <= e).
  { apply (Rmult_le_reg_r x); [lra|].
    assert (e * s <= e * x) by nra.
    assert (x ^ 3 / 3 - x ^ 5 / 60 <= e * s) by lra.
    replace (x * x / 3 * (1 - x * x / 20) * x) with (x ^ 3 / 3 - x ^ 5 / 60)
      by field. lra. }
  assert (Hhi : e * (1 - x * x / 6) <= x * x / 3).
  { apply (Rmult_le_reg_r x); [lra|].
    assert (e * (x - x ^ 3 / 6) <= e * s) by nra.
    assert (e * s <= x ^ 3 / 3) by lra.
    replace (e * (1 - x * x / 6) * x) with (e * (x - x ^ 3 / 6)) by field.
    replace (x * x / 3 * x) with (x ^ 3 / 3) by field. lra. }
  set (q := IZR n * IZR n) in *.
  assert (Hq : 4 <= q) by (unfold q; nra).
  assert (Hxq : x * x = PI * PI / (4 * q)) by (apply Rmult_eq_reg_r with (4 * q); [rewrite Hxx; field; lra|lra]).
  rewrite Hxq in Hlo, Hhi.
  split.
  - apply Rle_trans with (PI * PI / (4 * q) / 3 * (1 - PI * PI / (4 * q) / 20) * q).
    + right. field. lra.
    + apply Rmult_le_compat_r; lra.
  - apply Rle_trans with (PI * PI / (4 * q) / 3 * q).
    + replace (e * q * (1 - PI * PI / (24 * q)))
        with (e * (1 - PI * PI / (4 * q) / 6) * q) by (field; lra).
      apply Rmult_le_compat_r; lra.
    + right. field. lra.
Qed.

(** ** Which exception ends a call *)



(** ** The properties *)



(** X2: whatever the arithmetic and the integrand, a call evaluates the
    integrand at most [max(n, 0)] times; when it returns a value it has
    evaluated it exactly that often; and when it ends with an exception of
    the integrand, that exception was raised by the last evaluation, every
    earlier one having returned. *)
Theorem integrate_midpoint_call_budget
    (T E : Type) (F : float_ops T) (f : T -> E + T) (a b : T) (n : Z) :
  (length (evaluations (integrate_midpoint F f a b n)) <= Z.to_nat n)%nat
  /\ (forall v, outcome (integrate_midpoint F f a b n) = inr v ->
        length (evaluations (integrate_midpoint F f a b n)) = Z.to_nat n)
  /\ (forall e, outcome (integrate_midpoint F f a b n) = inl (Raised e) ->
        exists l x,
          evaluations (integrate_midpoint F f a b n) = l ++ [x]
          /\ f x = inl e
          /\ forall y, In y l -> exists v, f y = inr v).
Proof.
  destruct (Z_le_gt_dec n 0) as [Hn|Hn].
  - unfold outcome, evaluations.
    rewrite integrate_midpoint_below_one by exact Hn. cbn [fst snd length].
    split; [lia|]. split; [intros; lia|].
    intros e He.
    destruct (n <? -1)%Z; [discriminate|].
    destruct (n =? -1)%Z; discriminate.
  - pose proof (@faithful_integrate_midpoint T E F f a b n []
                  ltac:(intros y [])) as Hf.
    destruct (@integrate_midpoint_any T E F f a b n ltac:(lia))
      as [(v & Hv & Hl)|(e & He & Hl)].
    + rewrite Hv, Hl. split; [lia|]. split; [reflexivity|]. discriminate.
    + rewrite He. split; [lia|]. split; [discriminate|].
      intros e' He'. injection He' as <-.
      unfold outcome in He. unfold evaluations.
      destruct (integrate_midpoint F f a b n []) as [r log]. cbn in He. subst r.
      cbn in Hf. destruct Hf as (l & x & -> & Hl' & Hx).
      exists l, x. cbn [snd]. split; [reflexivity|]. split; [exact Hx|exact Hl'].
Qed.

(** X3: the outcome and the evaluations depend on the integrand only
    through what it does at the points where it is evaluated: an integrand
    that agrees with [f] at every point [f] is evaluated at gives the same
    outcome and the same evaluations, whatever the arithmetic. *)
Theorem integrate_midpoint_agree
    (T E : Type) (F : float_ops T) (f g : T -> E + T) (a b : T) (n : Z) :
  (forall y, In y (evaluations (integrate_midpoint F f a b n)) -> g y = f y) ->
  outcome (integrate_midpoint F g a b n) = outcome (integrate_midpoint F f a b n)
  /\ evaluations (integrate_midpoint F g a b n)
     = evaluations (integrate_midpoint F f a b n).
Proof.
  intros H. unfold outcome, evaluations.
  now rewrite (@integrate_midpoint_agree_run T E F f g a b n H).
Qed.

Lemma integrate_midpoint_agree_witness :
  (forall y,
     In y (evaluations (integrate_midpoint binary64 below_half64
                          0%float 1%float 2)) ->
     (fun x => if PrimFloat.ltb x 0.75%float then inr x else inl tt) y
     = below_half64 y)
  /\ outcome (integrate_midpoint binary64
                (fun x => if PrimFloat.ltb x 0.75%float then inr x else inl tt)
                0%float 1%float 2)
     = outcome (integrate_midpoint binary64 below_half64 0%float 1%float 2)
  /\ evaluations (integrate_midpoint binary64
                    (fun x => if PrimFloat.ltb x 0.75%float then inr x else inl tt)
                    0%float 1%float 2)
     = evaluations (integrate_midpoint binary64 below_half64 0%float 1%float 2).
Proof.
  assert (H : forall y,
            In y (evaluations (integrate_midpoint binary64 below_half64
                                 0%float 1%float 2)) ->
            (fun x => if PrimFloat.ltb x 0.75%float then inr x else inl tt) y
            = below_half64 y).
  { intros y Hy. vm_compute in Hy. destruct Hy as [<-|[<-|[]]]; reflexivity. }
  split; [exact H|].
  exact (@integrate_midpoint_agree float unit binary64 below_half64
           (fun x => if PrimFloat.ltb x 0.75%float then inr x else inl tt)
           0%float 1%float 2 H).
Defined.

(** X4: in exact arithmetic, for [n >= 1], if the integrand raises at some
    midpoint, the call ends with the exception raised at the first such
    midpoint, having evaluated the integrand at the midpoints up to that
    one, in order, and at no later one. *)
Theorem first_failure_ends_call
    (E : Type) (f : R -> E + R) (a b : R) (n : Z) :
  (1 <= n)%Z ->
  (exists j e, (0 <= j < n)%Z /\ f (midpoint a b n j) = inl e) ->
  exists j e,
    (0 <= j < n)%Z
    /\ f (midpoint a b n j) = inl e
    /\ (forall i, (0 <= i < j)%Z -> exists v, f (midpoint a b n i) = inr v)
    /\ outcome (integrate_midpoint exact f a b n) = inl (Raised e)
    /\ evaluations (integrate_midpoint exact f a b n)
       = map (midpoint a b n) (range (j + 1)).
Proof.
  intros Hn (j0 & e0 & Hj0 & He0).
  destruct (first_failure f (midpoint a b n) (Z.to_nat n))
    as [Hall|(j & e & Hj & He & Hmin)].
  - destruct (Hall j0) as [v Hv]; [lia|]. congruence.
  - exists j, e. split; [lia|]. split; [exact He|]. split; [exact Hmin|].
    destruct (@range_split n j) as [rest Hrest]; [lia|].
    unfold outcome, evaluations.
    rewrite integrate_midpoint_exact, Hrest by lia.
    rewrite (@loop_fail E f (width a b n) (midpoint a b n) (range j) j rest e).
    + rewrite range_succ by lia. now split.
    + intros i Hi. apply Hmin. now apply range_In.
    + exact He.
Qed.

Lemma first_failure_ends_call_witness :
  (1 <= 2)%Z /\
  exists j e,
    (0 <= j < 2)%Z
    /\ below_half (midpoint 0 1 2 j) = inl e
    /\ (forall i, (0 <= i < j)%Z -> exists v, below_half (midpoint 0 1 2 i) = inr v)
    /\ outcome (integrate_midpoint exact below_half 0 1 2) = inl (Raised e)
    /\ evaluations (integrate_midpoint exact below_half 0 1 2)
       = map (midpoint 0 1 2) (range (j + 1)).
Proof.
  split; [lia|].
  apply (first_failure_ends_call below_half 0 1 (n:=2)); [lia|].
  exists 1%Z, tt. split; [lia|].
  unfold below_half, midpoint, width.
  destruct (Rlt_dec (0 + 1 * ((1 - 0) / 2) + (1 - 0) / 2 / 2) (1 / 2)) as [H|H];
    [exfalso; lra|reflexivity].
Defined.

(** A call on a total integrand that returns a value, in exact arithmetic:
    the value is the midpoint sum, which is 0 when the loop is empty. *)
Lemma outcome_value (E : Type) (g : R -> R) (a b : R) (n : Z) (v : R) :
  outcome (integrate_midpoint exact (pure (E:=E) g) a b n) = inr v ->
  v = midpoint_sum g a b n.
Proof.
  intros H. destruct (Z_le_gt_dec n 0) as [Hn|Hn].
  - unfold outcome in H.
    rewrite integrate_midpoint_below_one in H by exact Hn. cbn [fst] in H.
    unfold midpoint_sum. rewrite range_nonpos by exact Hn. cbn [fold_left].
    destruct (n <? -1)%Z; [discriminate|].
    destruct (n =? -1)%Z; [|discriminate].
    now injection H as <-.
  - rewrite outcome_pure in H by lia. now injection H as <-.
Qed.

(** Whether such a call returns at all depends on [n] only. *)
Lemma outcome_returns (E : Type) (g h : R -> R) (a b a' b' : R) (n : Z) (v : R) :
  outcome (integrate_midpoint exact (pure (E:=E) g) a b n) = inr v ->
  outcome (integrate_midpoint exact (pure (E:=E) h) a' b' n)
  = inr (midpoint_sum h a' b' n).
Proof.
  intros H. destruct (Z_le_gt_dec n 0) as [Hn|Hn].
  - unfold outcome in *.
    rewrite integrate_midpoint_below_one in * by exact Hn. cbn [fst] in *.
    unfold midpoint_sum. rewrite range_nonpos by exact Hn. cbn [fold_left].
    destruct (n <? -1)%Z; [discriminate|].
    destruct (n =? -1)%Z; [reflexivity|discriminate].
  - apply outcome_pure. lia.
Qed.

(** X5: the rule is linear in the integrand (exact arithmetic): if the
    calls on [g] and on [h] return [vg] and [vh], the call on
    [al*g + be*h] over the same interval with the same [n] returns
    [al*vg + be*vh]. *)
Theorem integrate_midpoint_combination
    (E : Type) (g h : R -> R) (al be a b : R) (n : Z) (vg vh : R) :
  outcome (integrate_midpoint exact (pure (E:=E) g) a b n) = inr vg ->
  outcome (integrate_midpoint exact (pure (E:=E) h) a b n) = inr vh ->
  outcome (integrate_midpoint exact
             (pure (E:=E) (fun x => al * g x + be * h x)) a b n)
  = inr (al * vg + be * vh).
Proof.
  intros Hg Hh.
  rewrite (@outcome_returns E g (fun x => al * g x + be * h x) a b a b n vg Hg).
  apply outcome_value in Hg, Hh. subst vg vh.
  now rewrite midpoint_sum_combination.
Qed.

Lemma integrate_midpoint_combination_witness :
  outcome (integrate_midpoint exact (pure (E:=Empty_set) sin) 0 1 3)
  = inr (midpoint_sum sin 0 1 3)
  /\ outcome (integrate_midpoint exact (pure (E:=Empty_set) exp) 0 1 3)
     = inr (midpoint_sum exp 0 1 3)
  /\ outcome (integrate_midpoint exact
                (pure (E:=Empty_set) (fun x => 2 * sin x + 5 * exp x)) 0 1 3)
     = inr (2 * midpoint_sum sin 0 1 3 + 5 * midpoint_sum exp 0 1 3).
Proof.
  assert (Hg : outcome (integrate_midpoint exact (pure (E:=Empty_set) sin) 0 1 3)
               = inr (midpoint_sum sin 0 1 3))
    by (unfold outcome; rewrite integrate_midpoint_pure by lia; reflexivity).
  assert (Hh : outcome (integrate_midpoint exact (pure (E:=Empty_set) exp) 0 1 3)
               = inr (midpoint_sum exp 0 1 3))
    by (unfold outcome; rewrite integrate_midpoint_pure by lia; reflexivity).
  split; [exact Hg|]. split; [exact Hh|].
  exact (@integrate_midpoint_combination Empty_set sin exp 2 5 0 1 3 _ _ Hg Hh).
Defined.

(** X6: for [a <= b] and [n >= 1] the rule is monotone in the integrand
    (exact arithmetic): if [g <= h] between [a] and [b], the call on [g]
    returns at most what the call on [h] returns. *)
Theorem integrate_midpoint_monotone
    (E : Type) (g h : R -> R) (a b : R) (n : Z) :
  (1 <= n)%Z -> a <= b ->
  (forall x, a < x < b -> g x <= h x) ->
  exists vg vh,
    outcome (integrate_midpoint exact (pure (E:=E) g) a b n) = inr vg
    /\ outcome (integrate_midpoint exact (pure (E:=E) h) a b n) = inr vh
    /\ vg <= vh.
Proof.
  intros Hn Hab Hgh.
  exists (midpoint_sum g a b n), (midpoint_sum h a b n).
  rewrite !outcome_pure by exact Hn.
  split; [reflexivity|]. split; [reflexivity|].
  now apply midpoint_sum_le.
Qed.

Lemma integrate_midpoint_monotone_witness :
  (1 <= 4)%Z /\ 0 <= 1
  /\ (forall x, 0 < x < 1 -> x * x <= x)
  /\ exists vg vh,
       outcome (integrate_midpoint exact (pure (E:=Empty_set) (fun x => x * x)) 0 1 4)
       = inr vg
       /\ outcome (integrate_midpoint exact (pure (E:=Empty_set) (fun x => x)) 0 1 4)
          = inr vh
       /\ vg <= vh.
Proof.
  assert (Hn : (1 <= 4)%Z) by lia.
  assert (Hab : 0 <= 1) by lra.
  assert (Hgh : forall x, 0 < x < 1 -> x * x <= x) by (intros x Hx; nra).
  split; [exact Hn|]. split; [exact Hab|]. split; [exact Hgh|].
  exact (@integrate_midpoint_monotone Empty_set (fun x => x * x) (fun x => x)
           0 1 4 Hn Hab Hgh).
Defined.

(** X7: for [a <= b] and [n >= 1], if the integrand stays within
    [[lo, hi]] between [a] and [b], the call returns a value within
    [[lo*(b - a), hi*(b - a)]] (exact arithmetic). *)
Theorem integrate_midpoint_between
    (E : Type) (g : R -> R) (lo hi a b : R) (n : Z) :
  (1 <= n)%Z -> a <= b ->
  (forall x, a < x < b -> lo <= g x <= hi) ->
  exists v,
    outcome (integrate_midpoint exact (pure (E:=E) g) a b n) = inr v
    /\ lo * (b - a) <= v <= hi * (b - a).
Proof.
  intros Hn Hab Hg. exists (midpoint_sum g a b n).
  rewrite outcome_pure by exact Hn. split; [reflexivity|].
  rewrite <- (midpoint_sum_const lo a b Hn), <- (midpoint_sum_const hi a b Hn).
  split; apply midpoint_sum_le; try assumption; intros x Hx; now apply Hg.
Qed.

Lemma integrate_midpoint_between_witness :
  (1 <= 5)%Z /\ 0 <= PI
  /\ (forall x, 0 < x < PI -> 0 <= sin x <= 1)
  /\ exists v,
       outcome (integrate_midpoint exact (pure (E:=Empty_set) sin) 0 PI 5) = inr v
       /\ 0 * (PI - 0) <= v <= 1 * (PI - 0).
Proof.
  assert (Hn : (1 <= 5)%Z) by lia.
  assert (Hab : 0 <= PI) by (left; exact PI_RGT_0).
  assert (Hg : forall x, 0 < x < PI -> 0 <= sin x <= 1).
  { intros x [H0 H1]. split; [left; now apply sin_gt_0|].
    destruct (SIN_bound x) as [_ H]. exact H. }
  split; [exact Hn|]. split; [exact Hab|]. split; [exact Hg|].
  exact (@integrate_midpoint_between Empty_set sin 0 1 0 PI 5 Hn Hab Hg).
Defined.

(** X8: an affine change of variable goes through the rule (exact
    arithmetic): if the call on [x |-> g(k*x + c)] over [[a, b]] returns
    [v], the call on [g] over [[k*a + c, k*b + c]] with the same [n]
    returns [k*v].  So the result does not change when interval and
    integrand are shifted together, and scales with the interval. *)
Theorem integrate_midpoint_affine
    (E : Type) (g : R -> R) (k c a b : R) (n : Z) (v : R) :
  outcome (integrate_midpoint exact (pure (E:=E) (fun x => g (k * x + c))) a b n)
  = inr v ->
  outcome (integrate_midpoint exact (pure (E:=E) g) (k * a + c) (k * b + c) n)
  = inr (k * v).
Proof.
  intros H.
  rewrite (@outcome_returns E (fun x => g (k * x + c)) g a b (k * a + c) (k * b + c) n v H).
  apply outcome_value in H. subst v.
  now rewrite midpoint_sum_subst.
Qed.

Lemma integrate_midpoint_affine_witness :
  outcome (integrate_midpoint exact
             (pure (E:=Empty_set) (fun x => exp (2 * x + 1))) 0 1 3)
  = inr (midpoint_sum (fun x => exp (2 * x + 1)) 0 1 3)
  /\ outcome (integrate_midpoint exact (pure (E:=Empty_set) exp)
                (2 * 0 + 1) (2 * 1 + 1) 3)
     = inr (2 * midpoint_sum (fun x => exp (2 * x + 1)) 0 1 3).
Proof.
  assert (H : outcome (integrate_midpoint exact
                         (pure (E:=Empty_set) (fun x => exp (2 * x + 1))) 0 1 3)
              = inr (midpoint_sum (fun x => exp (2 * x + 1)) 0 1 3))
    by (unfold outcome; rewrite integrate_midpoint_pure by lia; reflexivity).
  split; [exact H|].
  exact (@integrate_midpoint_affine Empty_set exp 2 1 0 1 3 _ H).
Defined.

(** X9: the rule composes over adjacent intervals (exact arithmetic): with
    [k + m] sub-intervals over [[a, b]], the call returns the sum of what
    the call with [k] sub-intervals over [[a, p]] and the call with [m]
    sub-intervals over [[p, b]] return, [p = a + k*(b - a)/(k + m)] being
    the grid point number [k]. *)
Theorem integrate_midpoint_split
    (E : Type) (g : R -> R) (a b : R) (k m : Z) :
  (1 <= k)%Z -> (1 <= m)%Z ->
  exists v1 v2,
    outcome (integrate_midpoint exact (pure (E:=E) g)
               a (a + IZR k * ((b - a) / IZR (k + m))) k) = inr v1
    /\ outcome (integrate_midpoint exact (pure (E:=E) g)
                  (a + IZR k * ((b - a) / IZR (k + m))) b m) = inr v2
    /\ outcome (integrate_midpoint exact (pure (E:=E) g) a b (k + m))
       = inr (v1 + v2).
Proof.
  intros Hk Hm.
  exists (midpoint_sum g a (node a b (k + m) k) k),
         (midpoint_sum g (node a b (k + m) k) b m).
  change (a + IZR k * ((b - a) / IZR (k + m))) with (node a b (k + m) k).
  rewrite !outcome_pure by lia.
  split; [reflexivity|]. split; [reflexivity|].
  now rewrite midpoint_sum_split.
Qed.

Lemma integrate_midpoint_split_witness :
  (1 <= 2)%Z /\ (1 <= 3)%Z
  /\ exists v1 v2,
       outcome (integrate_midpoint exact (pure (E:=Empty_set) exp)
                  0 (0 + IZR 2 * ((1 - 0) / IZR (2 + 3))) 2) = inr v1
       /\ outcome (integrate_midpoint exact (pure (E:=Empty_set) exp)
                     (0 + IZR 2 * ((1 - 0) / IZR (2 + 3))) 1 3) = inr v2
       /\ outcome (integrate_midpoint exact (pure (E:=Empty_set) exp) 0 1 (2 + 3))
          = inr (v1 + v2).
Proof.
  assert (Hk : (1 <= 2)%Z) by lia.
  assert (Hm : (1 <= 3)%Z) by lia.
  split; [exact Hk|]. split; [exact Hm|].
  exact (@integrate_midpoint_split Empty_set exp 0 1 2 3 Hk Hm).
Defined.

(** X10: on a quadratic [p*x^2 + q*x + r] the call returns the integral
    minus [p*(b - a)^3 / (12 n^2)], for every [n >= 1] (exact arithmetic):
    the error depends on the leading coefficient, the width and [n] only,
    and falls as [n^-2]. *)
Theorem integrate_midpoint_quadratic
    (E : Type) (p q r a b : R) (n : Z) :
  (1 <= n)%Z ->
  outcome (integrate_midpoint exact
             (pure (E:=E) (fun x => p * (x * x) + q * x + r)) a b n)
  = inr (p * (b ^ 3 - a ^ 3) / 3 + q * (b ^ 2 - a ^ 2) / 2 + r * (b - a)
         - p * (b - a) ^ 3 / (12 * (IZR n * IZR n))).
Proof.
  intros Hn. rewrite outcome_pure by exact Hn. f_equal.
  assert (Hz : IZR n <> 0) by (apply not_0_IZR; lia).
  transitivity (p * midpoint_sum (fun x => x * x) a b n
                + 1 * midpoint_sum (fun x => q * x + r) a b n).
  - rewrite <- midpoint_sum_combination. rewrite !midpoint_sum_sumR.
    apply sumR_map_ext. intros j _. ring.
  - rewrite midpoint_sum_square, midpoint_sum_linear by exact Hn. field. exact Hz.
Qed.

Lemma integrate_midpoint_quadratic_witness :
  (1 <= 2)%Z
  /\ outcome (integrate_midpoint exact
                (pure (E:=Empty_set) (fun x => 3 * (x * x) + 2 * x + 1)) 0 1 2)
     = inr (3 * (1 ^ 3 - 0 ^ 3) / 3 + 2 * (1 ^ 2 - 0 ^ 2) / 2 + 1 * (1 - 0)
            - 3 * (1 - 0) ^ 3 / (12 * (IZR 2 * IZR 2))).
Proof.
  assert (Hn : (1 <= 2)%Z) by lia.
  split; [exact Hn|].
  exact (@integrate_midpoint_quadratic Empty_set 3 2 1 0 1 2 Hn).
Defined.

(** X11: the notebook's error bound (exact arithmetic).  For [a <= b],
    [n >= 1], an integrand [f] with antiderivative [P] and derivatives
    [f1], [f2] on [[a, b]], [|f2| <= K] there: the call returns a value
    within [K*(b - a)^3 / (24 n^2)] of [P(b) - P(a)]. *)
Theorem integrate_midpoint_error_bound
    (E : Type) (P f f1 f2 : R -> R) (a b K : R) (n : Z) :
  (1 <= n)%Z -> a <= b ->
  (forall x, a <= x <= b -> derivable_pt_lim P x (f x)) ->
  (forall x, a <= x <= b -> derivable_pt_lim f x (f1 x)) ->
  (forall x, a <= x <= b -> derivable_pt_lim f1 x (f2 x)) ->
  (forall x, a <= x <= b -> Rabs (f2 x) <= K) ->
  exists v,
    outcome (integrate_midpoint exact (pure (E:=E) f) a b n) = inr v
    /\ Rabs (P b - P a - v) <= K * (b - a) ^ 3 / (24 * (IZR n * IZR n)).
Proof.
  intros Hn Hab HP Hf Hf1 HK. exists (midpoint_sum f a b n).
  rewrite outcome_pure by exact Hn. split; [reflexivity|].
  exact (@midpoint_sum_error P f f1 f2 a b K n Hn Hab HP Hf Hf1 HK).
Qed.

Lemma integrate_midpoint_error_bound_witness :
  (1 <= 1000)%Z /\ 0 <= PI
  /\ (forall x, 0 <= x <= PI -> derivable_pt_lim (fun x => - cos x) x (sin x))
  /\ (forall x, 0 <= x <= PI -> derivable_pt_lim sin x (cos x))
  /\ (forall x, 0 <= x <= PI -> derivable_pt_lim cos x (- sin x))
  /\ (forall x, 0 <= x <= PI -> Rabs (- sin x) <= 1)
  /\ exists v,
       outcome (integrate_midpoint exact (pure (E:=Empty_set) sin) 0 PI 1000)
       = inr v
       /\ Rabs (- cos PI - - cos 0 - v)
          <= 1 * (PI - 0) ^ 3 / (24 * (IZR 1000 * IZR 1000)).
Proof.
  assert (Hn : (1 <= 1000)%Z) by lia.
  assert (Hab : 0 <= PI) by (left; exact PI_RGT_0).
  assert (HP : forall x, 0 <= x <= PI ->
                 derivable_pt_lim (fun x => - cos x) x (sin x)).
  { intros x _.
    apply (@derivable_pt_lim_eq (- cos)%F (fun x => - cos x) x (- - sin x));
      [reflexivity|apply Ropp_involutive|].
    apply derivable_pt_lim_opp, derivable_pt_lim_cos. }
  assert (Hf : forall x, 0 <= x <= PI -> derivable_pt_lim sin x (cos x))
    by (intros x _; apply derivable_pt_lim_sin).
  assert (Hf1 : forall x, 0 <= x <= PI -> derivable_pt_lim cos x (- sin x))
    by (intros x _; apply derivable_pt_lim_cos).
  assert (HK : forall x, 0 <= x <= PI -> Rabs (- sin x) <= 1).
  { intros x _. rewrite Rabs_Ropp. apply Rabs_le.
    destruct (SIN_bound x). split; assumption. }
  split; [exact Hn|]. split; [exact Hab|]. split; [exact HP|].
  split; [exact Hf|]. split; [exact Hf1|]. split; [exact HK|].
  exact (@integrate_midpoint_error_bound Empty_set (fun x => - cos x) sin cos
           (fun x => - sin x) 0 PI 1 1000 Hn Hab HP Hf Hf1 HK).
Defined.

(** X12: on the sine over [[0, pi]], for every [n >= 1], the call returns
    [(pi/n) / sin(pi/(2n))], which is more than the integral 2 (exact
    arithmetic). *)
Theorem integrate_midpoint_sin_closed_form (E : Type) (n : Z) :
  (1 <= n)%Z ->
  exists v,
    outcome (integrate_midpoint exact (pure (E:=E) sin) 0 PI n) = inr v
    /\ 0 < sin (PI / IZR n / 2)
    /\ v = PI / IZR n / sin (PI / IZR n / 2)
    /\ 2 < v.
Proof.
  intros Hn. exists (midpoint_sum sin 0 PI n).
  rewrite outcome_pure by exact Hn. split; [reflexivity|].
  destruct (half_step_range Hn) as [H0 H1]. pose proof PI_RGT_0.
  assert (Hs : 0 < sin (PI / IZR n / 2)) by (apply sin_gt_0; lra).
  split; [exact Hs|]. split; [|now apply midpoint_sum_sin_above].
  apply (Rmult_eq_reg_r (sin (PI / IZR n / 2))); [|lra].
  assert (Hz : IZR n <> 0) by (apply not_0_IZR; lia).
  rewrite (midpoint_sum_sin Hn). field. split; [exact Hz|lra].
Qed.

Lemma integrate_midpoint_sin_closed_form_witness :
  (1 <= 1000)%Z
  /\ exists v,
       outcome (integrate_midpoint exact (pure (E:=Empty_set) sin) 0 PI 1000)
       = inr v
       /\ 0 < sin (PI / IZR 1000 / 2)
       /\ v = PI / IZR 1000 / sin (PI / IZR 1000 / 2)
       /\ 2 < v.
Proof.
  assert (Hn : (1 <= 1000)%Z) by lia.
  split; [exact Hn|].
  exact (@integrate_midpoint_sin_closed_form Empty_set 1000 Hn).
Defined.

(** X13: on the sine over [[0, pi]], for every [n >= 2], the error
    [I_n - 2] times [n^2] is at least [pi^2/12 * (1 - pi^2/(80 n^2))], and
    times [n^2 * (1 - pi^2/(24 n^2))] at most [pi^2/12] (exact arithmetic):
    the error falls as [n^-2], with constant [pi^2/12]. *)
Theorem integrate_midpoint_sin_envelope (E : Type) (n : Z) :
  (2 <= n)%Z ->
  exists v,
    outcome (integrate_midpoint exact (pure (E:=E) sin) 0 PI n) = inr v
    /\ PI * PI / 12 * (1 - PI * PI / (80 * (IZR n * IZR n)))
       <= Rabs (2 - v) * (IZR n * IZR n)
    /\ Rabs (2 - v) * (IZR n * IZR n) * (1 - PI * PI / (24 * (IZR n * IZR n)))
       <= PI * PI / 12.
Proof.
  intros Hn. exists (midpoint_sum sin 0 PI n).
  rewrite outcome_pure by lia. split; [reflexivity|].
  pose proof (@midpoint_sum_sin_above n ltac:(lia)) as Hv.
  replace (Rabs (2 - midpoint_sum sin 0 PI n)) with (midpoint_sum sin 0 PI n - 2)
    by (rewrite Rabs_left; lra).
  now apply midpoint_sum_sin_envelope.
Qed.

Lemma integrate_midpoint_sin_envelope_witness :
  (2 <= 10)%Z
  /\ exists v,
       outcome (integrate_midpoint exact (pure (E:=Empty_set) sin) 0 PI 10) = inr v
       /\ PI * PI / 12 * (1 - PI * PI / (80 * (IZR 10 * IZR 10)))
          <= Rabs (2 - v) * (IZR 10 * IZR 10)
       /\ Rabs (2 - v) * (IZR 10 * IZR 10)
            * (1 - PI * PI / (24 * (IZR 10 * IZR 10)))
          <= PI * PI / 12.
Proof.
  assert (Hn : (2 <= 10)%Z) by lia.
  split; [exact Hn|].
  exact (@integrate_midpoint_sin_envelope Empty_set 10 Hn).
Defined.

(** X14: on the sine over [[0, pi]] more sub-intervals give a strictly
    smaller error: for [1 <= n < m] the error [|2 - I_m|] is below
    [|2 - I_n|] (exact arithmetic). *)
Theorem integrate_midpoint_sin_decreasing (E : Type) (n m : Z) :
  (1 <= n < m)%Z ->
  exists vn vm,
    outcome (integrate_midpoint exact (pure (E:=E) sin) 0 PI n) = inr vn
    /\ outcome (integrate_midpoint exact (pure (E:=E) sin) 0 PI m) = inr vm
    /\ Rabs (2 - vm) < Rabs (2 - vn).
Proof.
  intros H.
  exists (midpoint_sum sin 0 PI n), (midpoint_sum sin 0 PI m).
  rewrite !outcome_pure by lia.
  split; [reflexivity|]. split; [reflexivity|].
  pose proof (@midpoint_sum_sin_above n ltac:(lia)).
  pose proof (@midpoint_sum_sin_above m ltac:(lia)).
  pose proof (midpoint_sum_sin_decreasing H).
  rewrite !Rabs_left by lra. lra.
Qed.

Lemma integrate_midpoint_sin_decreasing_witness :
  (1 <= 10 < 20)%Z
  /\ exists vn vm,
       outcome (integrate_midpoint exact (pure (E:=Empty_set) sin) 0 PI 10) = inr vn
       /\ outcome (integrate_midpoint exact (pure (E:=Empty_set) sin) 0 PI 20) = inr vm
       /\ Rabs (2 - vm) < Rabs (2 - vn).
Proof.
  assert (H : (1 <= 10 < 20)%Z) by lia.
  split; [exact H|].
  exact (@integrate_midpoint_sin_decreasing Empty_set 10 20 H).
Defined.

(** X15: in the convergence check every integral is above 2 and the errors
    fall strictly along [nvals] (exact arithmetic). *)
Theorem error_decreasing (E : Type) :
  exists vs,
    outcome (integrals (E:=E)) = inr vs
    /\ length vs = length nvals
    /\ Forall (fun v => 2 < v) vs
    /\ forall i j, (i < j < length vs)%nat ->
         nth j (error vs) 0 < nth i (error vs) 0.
Proof.
  exists (map (midpoint_sum sin 0 PI) nvals).
  split; [apply integrals_outcome|].
  split; [apply length_map|].
  split.
  - apply Forall_forall. intros v Hv. apply in_map_iff in Hv.
    destruct Hv as [n [<- Hn]]. apply nvals_In in Hn.
    apply midpoint_sum_sin_above. lia.
  - rewrite length_map, nvals_length. intros i j Hij.
    unfold error, nvals, arange.
    change ((1010 - 10 + 10 - 1) / 10)%Z with 100%Z. unfold range.
    rewrite !map_map.
    set (h := fun k : nat =>
                Rabs (2 - midpoint_sum sin 0 PI (10 + 10 * Z.of_nat k))).
    change 0 with (IZR 0).
    rewrite (nth_indep _ (IZR 0) (h 0%nat)), (nth_indep _ (IZR 0) (h 0%nat) (n:=i))
      by (rewrite length_map, length_seq; cbn; lia).
    rewrite !map_nth, !seq_nth by (cbn; lia). cbn [Nat.add]. unfold h.
    pose proof (@midpoint_sum_sin_above (10 + 10 * Z.of_nat i) ltac:(lia)).
    pose proof (@midpoint_sum_sin_above (10 + 10 * Z.of_nat j) ltac:(lia)).
    pose proof (@midpoint_sum_sin_decreasing (10 + 10 * Z.of_nat i)
                  (10 + 10 * Z.of_nat j) ltac:(lia)).
    rewrite !Rabs_left by lra. lra.
Qed.
